(** * myTinyRpc: the server registry and its shutdown coordinator

    A shallow embedding of [server/server.go] (type [Server] and its methods
    [AddService], [Service], [Register], [Close], [tryClose]) together with
    the [Service] interface, [ServiceDesc] and the package constant
    [MaxCloseWaitTime].

    Conventions of the embedding
    - a Go [map[string]Service] is an [option (gmap string Service.t)]:
      [None] is the nil map a zero [Server] starts with;
    - [for ... := range m] visits the entries of [m] in an order the runtime
      chooses; the order is an explicit argument [pick] of every function
      that ranges over the map, and theorems hold for every [pick] that is a
      permutation;
    - calls that leave the package (an entry's [Register] and [Close],
      [context.WithTimeout]) are recorded in a list of [event]s, so that
      "is never invoked" is a statement about that list;
    - a Go [error] is an [option]: [None] is [nil];
    - entries are non-nil values of the interface and their methods return:
      what an entry does is read from the fields of its [Service.t]. *)

From Stdlib Require Import ZArith Lia.
From stdpp Require Import gmap strings list fin_maps relations.

(** ** Values of the package *)

(** [time.Duration]: a signed 64-bit count of nanoseconds. The code only
    compares durations, so no wrap-around occurs and [Z] is exact. *)
Definition Duration := Z.

Definition Second : Duration := 1000000000%Z.

(** [const MaxCloseWaitTime = 10 * time.Second] *)
Definition MaxCloseWaitTime : Duration := (10 * Second)%Z.

(** A non-nil [error]; [errors.New text]. *)
Inductive error_value : Type :=
| errors_New (text : string).

(** The interface type [error]: [None] is [nil]. *)
Definition error := option error_value.

(** [type ServiceDesc struct { ServiceName string }] *)
Record ServiceDesc := { ServiceName : string }.

(** A value of type [interface{}], by dynamic type. [AnyDescPtr None] is a
    nil pointer of type [*ServiceDesc]; [AnyNil] is the nil interface. *)
Inductive any : Type :=
| AnyNil
| AnyDescPtr (p : option ServiceDesc)
| AnyDesc (d : ServiceDesc)
| AnyString (text : string)
| AnyInt (n : Z).

(** The type assertion of [v] to a pointer to [ServiceDesc], with its
    [ok] flag. *)
Definition assert_desc_ptr (v : any) : option ServiceDesc * bool :=
  match v with
  | AnyDescPtr p => (p, true)
  | _ => (None, false)
  end.

(** ** The Service interface *)

Module Service.

(** What one call [srv.Close(c)] does, as its caller can observe it: the
    error it returns, and after how long (counted from the start of the
    shutdown body) a receive on [c] succeeds, [None] when it never does. *)
Record closing := {
  close_err : error;
  notify_after : option Duration
}.

(** [type Service interface { Register; Serve; Close }] *)
Record t := {
  Register : any → any → error;
  Serve : error;
  Close : closing
}.

End Service.

(** Calls that leave the package. The [name] is the map key of the loop
    iteration that makes the call. *)
Inductive event : Type :=
| EvRegister (name : string) (srv : Service.t) (desc impl : any)
| EvWithTimeout (d : Duration)
| EvClose (name : string) (srv : Service.t).

(** ** Channels of type [chan struct{}] *)

(** [closeCh] is only ever closed, never sent on or received from. *)
Inductive chan_state : Type := ChOpen | ChClosed.

(** The acknowledgement channel as a sender meets it. *)
Record Chan := {
  ch_cap : nat;       (* buffer capacity, 0 for an unbuffered channel *)
  ch_len : nat;       (* elements in the buffer *)
  ch_recvq : nat;     (* receivers blocked on the channel *)
  ch_closed : bool
}.

Inductive sent : Type :=
| SendOk (c : Chan)
| SendBlocks
| SendPanics.

(** [c <- struct{}{}] on a non-nil channel. *)
Definition chan_send (c : Chan) : sent :=
  if ch_closed c then SendPanics
  else match ch_recvq c with
       | S waiting =>
           SendOk {| ch_cap := ch_cap c; ch_len := ch_len c;
                     ch_recvq := waiting; ch_closed := false |}
       | O =>
           if (ch_len c <? ch_cap c)%nat
           then SendOk {| ch_cap := ch_cap c; ch_len := S (ch_len c);
                          ch_recvq := 0; ch_closed := false |}
           else SendBlocks
       end.

(** How a call ends. *)
Inductive outcome (A : Type) : Type :=
| Returned (a : A)
| Panicked (reason : string)
| Blocked.
Arguments Returned {A} a.
Arguments Panicked {A} reason.
Arguments Blocked {A}.

(** The order in which one [range] loop visits the entries of a map. *)
Definition range_order := list (string * Service.t) → list (string * Service.t).

Definition is_range_order (pick : range_order) : Prop :=
  ∀ l, pick l ≡ₚ l.

(** ** The Server *)

Module Server.

(** The package constant, which the field of the same name hides below. *)
Local Abbreviation floor := MaxCloseWaitTime.

(** [type Server struct]. The field [mux] is never used by the code and is
    left out; [failedServices] is a [sync.Map] of which only the keys are
    consulted; [closeOnce] holds the [done] flag of the [sync.Once]. *)
Record t := {
  MaxCloseWaitTime : Duration;
  services : option (gmap string Service.t);
  failedServices : gset string;
  closeCh : option chan_state;
  closeOnce : bool
}.

(** The zero value [Server{}]. *)
Definition zero : t :=
  {| MaxCloseWaitTime := 0%Z; services := None; failedServices := ∅;
     closeCh := None; closeOnce := false |}.

Definition with_services (m : option (gmap string Service.t)) (s : t) : t :=
  {| MaxCloseWaitTime := MaxCloseWaitTime s; services := m;
     failedServices := failedServices s; closeCh := closeCh s;
     closeOnce := closeOnce s |}.

Definition with_closeCh (c : option chan_state) (s : t) : t :=
  {| MaxCloseWaitTime := MaxCloseWaitTime s; services := services s;
     failedServices := failedServices s; closeCh := c;
     closeOnce := closeOnce s |}.

Definition with_closeOnce (b : bool) (s : t) : t :=
  {| MaxCloseWaitTime := MaxCloseWaitTime s; services := services s;
     failedServices := failedServices s; closeCh := closeCh s;
     closeOnce := b |}.

(** [func (s *Server) AddService(serviceName string, service Service)] *)
Definition AddService (serviceName : string) (service : Service.t) (s : t) : t :=
  let m := match services s with
           | None => ∅
           | Some m => m
           end in
  with_services (Some (<[serviceName := service]> m)) s.

(** [func (s *Server) Service(serviceName string) Service]; [None] is the
    nil interface. *)
Definition Service (serviceName : string) (s : t) : option Service.t :=
  match services s with
  | None => None
  | Some m => m !! serviceName
  end.

(** The entries one [range s.services] loop visits, in order. Ranging over
    a nil map visits nothing. *)
Definition range (pick : range_order) (s : t) : list (string * Service.t) :=
  match services s with
  | None => []
  | Some m => pick (map_to_list m)
  end.

(** The loop of [Register]: stops at the first entry that returns an
    error. *)
Fixpoint Register_loop (entries : list (string * Service.t)) (desc impl : any)
  : list event * error :=
  match entries with
  | [] => ([], None)
  | (name, srv) :: rest =>
      match Service.Register srv desc impl with
      | Some err => ([EvRegister name srv desc impl], Some err)
      | None =>
          let '(evs, r) := Register_loop rest desc impl in
          (EvRegister name srv desc impl :: evs, r)
      end
  end.

(** [func (s *Server) Register(serviceDesc, serviceImpl interface{}) error] *)
Definition Register (pick : range_order) (serviceDesc serviceImpl : any) (s : t)
  : list event * error :=
  let '(desc, ok) := assert_desc_ptr serviceDesc in
  if negb ok then ([], Some (errors_New "service desc type invalid"))
  else Register_loop (range pick s) (AnyDescPtr desc) serviceImpl.

(** *** Shutdown *)

(** The first statements of the closure [fn] in [tryClose]:
    [closeWaitTime := s.MaxCloseWaitTime], raised to the package constant
    when it is below it. *)
Definition closeWaitTime (s : t) : Duration :=
  if (MaxCloseWaitTime s <? floor)%Z then floor else MaxCloseWaitTime s.

(** The goroutine [fn] starts for one entry. It hands [srv.Close(c)] to a
    goroutine of its own and then waits in
    [select { case <-c: case <-ctx.Done(): }], so its wait ends when the
    entry signals or when the deadline of [ctx] passes, whichever is
    first. The result is the instant at which its deferred [wg.Done()]
    runs: [latency] is the time the scheduler takes to run the goroutine
    once its [select] is ready. *)
Definition await (start deadline : Z) (latency : Duration) (srv : Service.t) : Z :=
  let ready := match Service.notify_after (Service.Close srv) with
               | Some d => Z.min (start + d) deadline
               | None => deadline
               end in
  (ready + latency)%Z.

(** The loop [for name, service := range s.services] of [fn]: an entry
    whose name is in [failedServices] is skipped, every other entry gets a
    goroutine. The result lists the calls of [Close] made and the instants
    of the [wg.Done()]s. *)
Fixpoint fan_out (failed : gset string) (start deadline : Z)
    (latency : string → Duration) (entries : list (string * Service.t))
  : list event * list Z :=
  match entries with
  | [] => ([], [])
  | (name, srv) :: rest =>
      if decide (name ∈ failed)
      then fan_out failed start deadline latency rest
      else
        let '(evs, dones) := fan_out failed start deadline latency rest in
        (EvClose name srv :: evs,
         await start deadline (latency name) srv :: dones)
  end.

(** [wg.Wait()] returns once every [wg.Done()] has run. *)
Definition wg_Wait (start : Z) (dones : list Z) : Z :=
  foldr Z.max start dones.

(** The closure [fn] of [tryClose], entered at instant [start]: the calls
    it makes and the instant at which it returns. *)
Definition fn (pick : range_order) (latency : string → Duration) (start : Z) (s : t)
  : list event * Z :=
  let wait := closeWaitTime s in
  let deadline := (start + wait)%Z in
  let '(evs, dones) :=
    fan_out (failedServices s) start deadline latency (range pick s) in
  (EvWithTimeout wait :: evs, wg_Wait start dones).

(** [func (s *Server) tryClose()], that is [s.closeOnce.Do(fn)], for a
    caller that is alone: [fn] runs unless [closeOnce] is done, and
    [closeOnce] is done when it returns. *)
Definition tryClose (pick : range_order) (latency : string → Duration)
    (start : Z) (s : t) : t * list event * Z :=
  if closeOnce s then (s, [], start)
  else
    let '(evs, finish) := fn pick latency start s in
    (with_closeOnce true s, evs, finish).

(** [close(s.closeCh)] under its guard [s.closeCh != nil]. Closing a
    channel that is closed already is a run-time panic. *)
Definition close_closeCh (s : t) : outcome t :=
  match closeCh s with
  | None => Returned s
  | Some ChOpen => Returned (with_closeCh (Some ChClosed) s)
  | Some ChClosed => Panicked "close of closed channel"
  end.

(** [ch <- struct{}{}] under its guard [ch != nil]. *)
Definition acknowledge (ch : option Chan) : outcome (option Chan) :=
  match ch with
  | None => Returned None
  | Some c =>
      match chan_send c with
      | SendOk c' => Returned (Some c')
      | SendBlocks => Blocked
      | SendPanics => Panicked "send on closed channel"
      end
  end.

(** What a call of [Close] leaves behind. *)
Record closed := {
  result : outcome error;     (* how the call ended *)
  server : t;                 (* the server afterwards *)
  ack : option Chan;          (* the caller's channel afterwards *)
  events : list event;        (* the calls made *)
  finish : Z                  (* the instant the call ended, or got stuck *)
}.

(** [func (s *Server) Close(ch chan struct{}) error], called at instant
    [start] by a caller that is alone. *)
Definition Close (pick : range_order) (latency : string → Duration)
    (start : Z) (ch : option Chan) (s : t) : closed :=
  match close_closeCh s with
  | Panicked reason =>
      {| result := Panicked reason; server := s; ack := ch;
         events := []; finish := start |}
  | Blocked =>
      {| result := Blocked; server := s; ack := ch;
         events := []; finish := start |}
  | Returned s1 =>
      let '(s2, evs, t2) := tryClose pick latency start s1 in
      match acknowledge ch with
      | Returned ch' =>
          {| result := Returned None; server := s2; ack := ch';
             events := evs; finish := t2 |}
      | Panicked reason =>
          {| result := Panicked reason; server := s2; ack := ch;
             events := evs; finish := t2 |}
      | Blocked =>
          {| result := Blocked; server := s2; ack := ch;
             events := evs; finish := t2 |}
      end
  end.

(** Calls of [Close] one after the other, each with its own channel, on
    the server the previous one left. *)
Fixpoint Close_all (pick : range_order) (latency : string → Duration)
    (start : Z) (chs : list (option Chan)) (s : t) : list closed :=
  match chs with
  | [] => []
  | ch :: rest =>
      let r := Close pick latency start ch s in
      r :: Close_all pick latency (finish r) rest (server r)
  end.

End Server.

(** The number of times the shutdown body was entered: each run of [fn]
    starts with one call of [context.WithTimeout]. *)
Fixpoint body_runs (evs : list event) : nat :=
  match evs with
  | [] => 0
  | EvWithTimeout _ :: rest => S (body_runs rest)
  | _ :: rest => body_runs rest
  end.

(** ** Concurrent callers of Close *)

Module Callers.

(** Where a caller of [Close] stands. [sync.Once.Do(f)] is
    [if o.done.Load() == 0 { o.doSlow(f) }], and [doSlow] locks [o.m],
    reads [done] again, runs [f] when it is still 0 and stores 1 in
    [done] when [f] has returned, then unlocks. *)
Inductive pc : Type :=
| AtCloseCh                 (* before the guarded [close(s.closeCh)] *)
| AtOnceLoad                (* in [Do], before the first read of [done] *)
| AtOnceLock                (* in [doSlow], before [o.m.Lock()] *)
| AtOnceCheck               (* holding [o.m], before the second read *)
| InFn                      (* holding [o.m], running [fn] *)
| AtAck                     (* before the guarded send on [ch] *)
| Finished (err : error)    (* returned [err] *)
| Crashed (reason : string) (* panicked *).

Record caller := { at_pc : pc; ch : option Chan }.

(** The server, the holder of the mutex [o.m] of [closeOnce], the callers
    and the calls made so far. *)
Record state := {
  server : Server.t;
  once_m : option nat;
  callers : list caller;
  log : list event
}.

Definition init (s : Server.t) (chs : list (option Chan)) : state :=
  {| server := s; once_m := None;
     callers := (λ c, {| at_pc := AtCloseCh; ch := c |}) <$> chs;
     log := [] |}.

Definition move (i : nat) (p : pc) (c : option Chan) (σ : state) : list caller :=
  <[i := {| at_pc := p; ch := c |}]> (callers σ).

(** One atomic step of caller [i]. A panic is kept local to its caller, as
    when the caller recovers from it; a panic that ends the process allows
    fewer runs, not more. *)
Inductive step : state → state → Prop :=
| step_closeCh_nil σ i c :
    callers σ !! i = Some {| at_pc := AtCloseCh; ch := c |} →
    Server.closeCh (server σ) = None →
    step σ {| server := server σ; once_m := once_m σ;
              callers := move i AtOnceLoad c σ; log := log σ |}
| step_closeCh_open σ i c :
    callers σ !! i = Some {| at_pc := AtCloseCh; ch := c |} →
    Server.closeCh (server σ) = Some ChOpen →
    step σ {| server := Server.with_closeCh (Some ChClosed) (server σ);
              once_m := once_m σ;
              callers := move i AtOnceLoad c σ; log := log σ |}
| step_closeCh_closed σ i c :
    callers σ !! i = Some {| at_pc := AtCloseCh; ch := c |} →
    Server.closeCh (server σ) = Some ChClosed →
    step σ {| server := server σ; once_m := once_m σ;
              callers := move i (Crashed "close of closed channel") c σ;
              log := log σ |}
| step_once_fast σ i c :
    callers σ !! i = Some {| at_pc := AtOnceLoad; ch := c |} →
    Server.closeOnce (server σ) = true →
    step σ {| server := server σ; once_m := once_m σ;
              callers := move i AtAck c σ; log := log σ |}
| step_once_slow σ i c :
    callers σ !! i = Some {| at_pc := AtOnceLoad; ch := c |} →
    Server.closeOnce (server σ) = false →
    step σ {| server := server σ; once_m := once_m σ;
              callers := move i AtOnceLock c σ; log := log σ |}
| step_once_lock σ i c :
    callers σ !! i = Some {| at_pc := AtOnceLock; ch := c |} →
    once_m σ = None →
    step σ {| server := server σ; once_m := Some i;
              callers := move i AtOnceCheck c σ; log := log σ |}
| step_once_late σ i c :
    callers σ !! i = Some {| at_pc := AtOnceCheck; ch := c |} →
    Server.closeOnce (server σ) = true →
    step σ {| server := server σ; once_m := None;
              callers := move i AtAck c σ; log := log σ |}
| step_once_run σ i c pick latency start :
    callers σ !! i = Some {| at_pc := AtOnceCheck; ch := c |} →
    Server.closeOnce (server σ) = false →
    is_range_order pick →
    step σ {| server := server σ; once_m := once_m σ;
              callers := move i InFn c σ;
              log := log σ ++ (Server.fn pick latency start (server σ)).1 |}
| step_fn_return σ i c :
    callers σ !! i = Some {| at_pc := InFn; ch := c |} →
    step σ {| server := Server.with_closeOnce true (server σ);
              once_m := None;
              callers := move i AtAck c σ; log := log σ |}
| step_ack σ i c c' :
    callers σ !! i = Some {| at_pc := AtAck; ch := c |} →
    Server.acknowledge c = Returned c' →
    step σ {| server := server σ; once_m := once_m σ;
              callers := move i (Finished None) c' σ; log := log σ |}
| step_ack_panic σ i c reason :
    callers σ !! i = Some {| at_pc := AtAck; ch := c |} →
    Server.acknowledge c = Panicked reason →
    step σ {| server := server σ; once_m := once_m σ;
              callers := move i (Crashed reason) c σ; log := log σ |}.

(** The states some interleaving of the callers reaches. *)
Definition reachable (s : Server.t) (chs : list (option Chan)) (σ : state) : Prop :=
  rtc step (init s chs) σ.

(** What the mutex and the [done] flag guarantee along every run. *)
Record invariant (σ : state) : Prop := {
  inv_check : ∀ i c,
    callers σ !! i = Some {| at_pc := AtOnceCheck; ch := c |} →
    once_m σ = Some i;
  inv_infn : ∀ i c,
    callers σ !! i = Some {| at_pc := InFn; ch := c |} →
    once_m σ = Some i ∧ Server.closeOnce (server σ) = false;
  inv_idle :
    Server.closeOnce (server σ) = false →
    (∀ i c, callers σ !! i ≠ Some {| at_pc := InFn; ch := c |}) →
    body_runs (log σ) = 0;
  inv_once : body_runs (log σ) ≤ 1
}.

End Callers.

(** ** Notions the properties are stated with *)

(** The calls a broadcast makes to the entries [l] when none of them fails. *)
Definition registrations (desc impl : any) (l : list (string * Service.t)) : list event :=
  (λ e, EvRegister e.1 e.2 desc impl) <$> l.

(** The acknowledgement can be delivered at once: no channel was passed, or
    the channel is open and has a receiver waiting or room in its buffer. *)
Definition accepts (ch : option Chan) : Prop :=
  match ch with
  | None => True
  | Some c => ch_closed c = false ∧ (0 < ch_recvq c ∨ ch_len c < ch_cap c)
  end.

(** Where a caller stands when its call has ended with outcome [o]: a call
    that blocks is still before its send. *)
Definition ends_at (o : outcome error) : Callers.pc :=
  match o with
  | Returned err => Callers.Finished err
  | Panicked reason => Callers.Crashed reason
  | Blocked => Callers.AtAck
  end.

(** * A registry to run the properties on *)

(** An entry that accepts every registration and signals at once. *)
Definition quick : Service.t :=
  {| Service.Register := λ _ _, None;
     Service.Serve := None;
     Service.Close := {| Service.close_err := None;
                         Service.notify_after := Some 0%Z |} |}.

(** An entry that refuses every registration, and whose [Close] returns an
    error and never signals. *)
Definition broken : Service.t :=
  {| Service.Register := λ _ _, Some (errors_New "method not found");
     Service.Serve := None;
     Service.Close := {| Service.close_err := Some (errors_New "listener busy");
                         Service.notify_after := None |} |}.

(** An entry that signals two seconds after it was asked to close. *)
Definition slow : Service.t :=
  {| Service.Register := λ _ _, None;
     Service.Serve := None;
     Service.Close := {| Service.close_err := None;
                         Service.notify_after := Some (2 * Second)%Z |} |}.

Definition echo : ServiceDesc := {| ServiceName := "echo" |}.

(** Three entries; a [range] in the order of [map_to_list] visits "c", then
    "a", then "b". The configured wait of one second is below the floor. *)
Definition three : Server.t :=
  Server.AddService "c" quick
    (Server.AddService "b" slow
       (Server.AddService "a" broken
          {| Server.MaxCloseWaitTime := Second; Server.services := None;
             Server.failedServices := ∅; Server.closeCh := None;
             Server.closeOnce := false |})).

(** The same registry with "a" marked as failed. *)
Definition three_a_failed : Server.t :=
  {| Server.MaxCloseWaitTime := Second;
     Server.services := Server.services three;
     Server.failedServices := {["a"]};
     Server.closeCh := None; Server.closeOnce := false |}.

(** A registry whose [closeCh] was made. *)
Definition announced : Server.t :=
  Server.with_closeCh (Some ChOpen) three.

(** An unbuffered channel with one receiver waiting. *)
Definition awaited : Chan :=
  {| ch_cap := 0; ch_len := 0; ch_recvq := 1; ch_closed := false |}.

Definition no_latency : string → Duration := λ _, 0%Z.

(** Two callers without a channel, both returned, after one run of [fn]. *)
Definition both_finished : Callers.state :=
  {| Callers.server := Server.with_closeOnce true three;
     Callers.once_m := None;
     Callers.callers := [ {| Callers.at_pc := Callers.Finished None; Callers.ch := None |};
                          {| Callers.at_pc := Callers.Finished None; Callers.ch := None |} ];
     Callers.log := (Server.fn id no_latency 0%Z three).1 |}.

(** ** Notions for the further properties *)

(** The map keys under which a list of calls asks entries to register, and
    to close. *)
Definition registered_names (evs : list event) : list string :=
  omap (λ ev, match ev with EvRegister name _ _ _ => Some name | _ => None end) evs.

Definition closed_names (evs : list event) : list string :=
  omap (λ ev, match ev with EvClose name _ => Some name | _ => None end) evs.

(** The entry accepts the registration of [impl] under [desc]. *)
Definition accepts_registration (desc impl : any) (e : string * Service.t) : Prop :=
  Service.Register e.2 desc impl = None.

(** The names the shutdown body has to close: those of the registry that
    are not marked as failed. *)
Definition names_to_close (s : Server.t) : gset string :=
  dom (default ∅ (Server.services s)) ∖ Server.failedServices s.

(** What holds of the callers of [Close] on the registry [s0] along every
    run, besides [Callers.invariant]: [Close] leaves the entries, the failed
    names and the wait alone; a caller is past [tryClose] only when
    [closeOnce] is done, and it returns nil; [closeOnce] is done only when
    [fn] has run, now or before the run began; the calls made are those of
    one run of [fn] on [s0]. *)
Record settled (s0 : Server.t) (σ : Callers.state) : Prop := {
  st_services : Server.services (Callers.server σ) = Server.services s0;
  st_failed : Server.failedServices (Callers.server σ) = Server.failedServices s0;
  st_wait : Server.MaxCloseWaitTime (Callers.server σ) = Server.MaxCloseWaitTime s0;
  st_sticky : Server.closeOnce s0 = true → Server.closeOnce (Callers.server σ) = true;
  st_past : ∀ i c,
    Callers.callers σ !! i = Some {| Callers.at_pc := Callers.AtAck; Callers.ch := c |} →
    Server.closeOnce (Callers.server σ) = true;
  st_finished : ∀ i c err,
    Callers.callers σ !! i
    = Some {| Callers.at_pc := Callers.Finished err; Callers.ch := c |} →
    err = None ∧ Server.closeOnce (Callers.server σ) = true;
  st_running : ∀ i c,
    Callers.callers σ !! i = Some {| Callers.at_pc := Callers.InFn; Callers.ch := c |} →
    body_runs (Callers.log σ) = 1;
  st_done :
    Server.closeOnce (Callers.server σ) = true →
    Server.closeOnce s0 = true ∨ body_runs (Callers.log σ) = 1;
  st_log :
    Callers.log σ = [] ∨
    ∃ pick latency start,
      is_range_order pick ∧ Callers.log σ = (Server.fn pick latency start s0).1
}.

(** A registry on which [Close] has nothing left to do: [closeCh] is closed,
    or there is none and [closeOnce] is done. *)
Definition shut (s : Server.t) : Prop :=
  Server.closeCh s = Some ChClosed ∨
  (Server.closeCh s = None ∧ Server.closeOnce s = true).

(** Two entries under different names, for the order of two [AddService]s. *)
Definition two_ab : Server.t :=
  Server.AddService "b" slow (Server.AddService "a" quick Server.zero).

(** A registry of which every entry is marked as failed. *)
Definition all_failed : Server.t :=
  {| Server.MaxCloseWaitTime := Second;
     Server.services := Server.services three;
     Server.failedServices := {["a"; "b"; "c"]};
     Server.closeCh := None; Server.closeOnce := false |}.

(** A channel that was closed by its owner. *)
Definition hung_up : Chan :=
  {| ch_cap := 1; ch_len := 0; ch_recvq := 0; ch_closed := true |}.


(** A buffered channel whose buffer is full, with no receiver. *)
Definition full : Chan :=
  {| ch_cap := 1; ch_len := 1; ch_recvq := 0; ch_closed := false |}.

(** * Properties *)

(** ** Ranging over the services *)

Section Range.
Context (pick : range_order) (Hpick : is_range_order pick).

Lemma range_lookup name srv s :
  (name, srv) ∈ Server.range pick s ↔ Server.Service name s = Some srv.
Proof.
  unfold Server.range, Server.Service.
  destruct (Server.services s) as [m|].
  - rewrite (Hpick (map_to_list m)). apply elem_of_map_to_list.
  - split; [intros H; inversion H | discriminate].
Qed.

Lemma range_NoDup_names s : NoDup (Server.range pick s).*1.
Proof.
  unfold Server.range. destruct (Server.services s) as [m|].
  - rewrite (Hpick (map_to_list m)). apply NoDup_fst_map_to_list.
  - constructor.
Qed.

Lemma range_functional s name e1 e2 :
  (name, e1) ∈ Server.range pick s → (name, e2) ∈ Server.range pick s → e1 = e2.
Proof. rewrite !range_lookup. congruence. Qed.

End Range.

Lemma is_range_order_id : is_range_order id.
Proof. intros l. reflexivity. Qed.

Lemma is_range_order_reverse : is_range_order reverse.
Proof. intros l. apply reverse_Permutation. Qed.

(** ** Registration *)

Lemma Register_loop_stops pre name srv post desc impl err :
  Forall (λ e, Service.Register e.2 desc impl = None) pre →
  Service.Register srv desc impl = Some err →
  Server.Register_loop (pre ++ (name, srv) :: post) desc impl
  = (registrations desc impl pre ++ [EvRegister name srv desc impl], Some err).
Proof.
  intros Hpre Herr. induction Hpre as [|[n e] pre Hn _ IH]; simpl.
  - by rewrite Herr.
  - simpl in Hn. by rewrite Hn, IH.
Qed.

Lemma Register_loop_all_ok l desc impl :
  Forall (λ e, Service.Register e.2 desc impl = None) l →
  Server.Register_loop l desc impl = (registrations desc impl l, None).
Proof.
  induction 1 as [|[n e] l Hn _ IH]; simpl; [done|].
  simpl in Hn. by rewrite Hn, IH.
Qed.

Lemma Register_loop_calls l desc impl name srv d i :
  EvRegister name srv d i ∈ (Server.Register_loop l desc impl).1 →
  (name, srv) ∈ l ∧ d = desc ∧ i = impl.
Proof.
  induction l as [|[n e] l IH]; simpl.
  - intros H. inversion H.
  - destruct (Service.Register e desc impl) as [err|].
    + simpl. intros H. apply list_elem_of_singleton in H.
      inversion H; subst. split; [left|done].
    + destruct (Server.Register_loop l desc impl) as [evs r]. simpl in *.
      intros H. apply elem_of_cons in H as [H|H].
      * inversion H; subst. split; [left|done].
      * destruct (IH H) as (? & ? & ?). split; [by right|done].
Qed.

Lemma Register_loop_only_registers l desc impl :
  body_runs (Server.Register_loop l desc impl).1 = 0 ∧
  ∀ name srv, EvClose name srv ∉ (Server.Register_loop l desc impl).1.
Proof.
  induction l as [|[n e] l [IH1 IH2]]; simpl.
  - split; [done|]. intros ?? H. inversion H.
  - destruct (Service.Register e desc impl) as [err|]; simpl.
    + split; [done|]. intros ?? H. apply list_elem_of_singleton in H. discriminate.
    + destruct (Server.Register_loop l desc impl) as [evs r]. simpl in *.
      split; [done|]. intros ?? H. apply elem_of_cons in H as [H|H]; [discriminate|].
      by eapply IH2.
Qed.

(** ** The shutdown body *)

Lemma fan_out_calls failed start deadline latency l name srv :
  EvClose name srv ∈ (Server.fan_out failed start deadline latency l).1 ↔
  (name, srv) ∈ l ∧ name ∉ failed.
Proof.
  induction l as [|[n e] l IH]; simpl.
  - split; [intros H; inversion H | intros [H _]; inversion H].
  - destruct (decide (n ∈ failed)) as [Hin|Hout].
    + rewrite IH. split.
      * intros [? ?]. split; [by right|done].
      * intros [H ?]. apply elem_of_cons in H as [H|H]; [|done].
        inversion H; subst. done.
    + destruct (Server.fan_out failed start deadline latency l) as [evs dones].
      simpl in *. rewrite elem_of_cons, IH, elem_of_cons. split.
      * intros [H|[? ?]]; [inversion H; subst|]; auto.
      * intros [[H|H] ?]; [inversion H; subst|]; auto.
Qed.

Lemma fan_out_only_closes failed start deadline latency l :
  body_runs (Server.fan_out failed start deadline latency l).1 = 0 ∧
  ∀ name srv d i,
    EvRegister name srv d i ∉ (Server.fan_out failed start deadline latency l).1.
Proof.
  induction l as [|[n e] l [IH1 IH2]]; simpl.
  - split; [done|]. intros ???? H. inversion H.
  - destruct (decide (n ∈ failed)); [done|].
    destruct (Server.fan_out failed start deadline latency l) as [evs dones].
    simpl in *. split; [done|].
    intros ???? H. apply elem_of_cons in H as [H|H]; [discriminate|].
    by eapply IH2.
Qed.

Lemma fan_out_dones_bound failed start deadline latency ε l :
  (∀ name, (latency name ≤ ε)%Z) →
  Forall (λ t, (t ≤ deadline + ε)%Z)
    (Server.fan_out failed start deadline latency l).2.
Proof.
  intros Hlat. induction l as [|[n e] l IH]; simpl; [constructor|].
  destruct (decide (n ∈ failed)); [done|].
  destruct (Server.fan_out failed start deadline latency l) as [evs dones].
  simpl in *. constructor; [|done].
  unfold Server.await. specialize (Hlat n).
  destruct (Service.notify_after (Service.Close e)); lia.
Qed.

Lemma wg_Wait_lower start dones : (start ≤ Server.wg_Wait start dones)%Z.
Proof. induction dones; simpl; lia. Qed.

Lemma wg_Wait_upper start dones bound :
  (start ≤ bound)%Z → Forall (λ t, (t ≤ bound)%Z) dones →
  (Server.wg_Wait start dones ≤ bound)%Z.
Proof. intros Hs. induction 1; simpl; lia. Qed.

Lemma closeWaitTime_max s :
  Server.closeWaitTime s = Z.max (Server.MaxCloseWaitTime s) MaxCloseWaitTime.
Proof.
  unfold Server.closeWaitTime.
  destruct (Z.ltb_spec (Server.MaxCloseWaitTime s) MaxCloseWaitTime); lia.
Qed.

Lemma fn_body_runs pick latency start s :
  body_runs (Server.fn pick latency start s).1 = 1.
Proof.
  unfold Server.fn.
  pose proof (fan_out_only_closes (Server.failedServices s) start
    (start + Server.closeWaitTime s) latency (Server.range pick s)) as [H _].
  destruct (Server.fan_out _ _ _ _ _) as [evs dones]. simpl in *. by rewrite H.
Qed.

Lemma fn_calls pick latency start s name srv :
  EvClose name srv ∈ (Server.fn pick latency start s).1 ↔
  (name, srv) ∈ Server.range pick s ∧ name ∉ Server.failedServices s.
Proof.
  unfold Server.fn.
  pose proof (fan_out_calls (Server.failedServices s) start
    (start + Server.closeWaitTime s) latency (Server.range pick s) name srv) as H.
  destruct (Server.fan_out _ _ _ _ _) as [evs dones]. simpl in *.
  rewrite elem_of_cons, H. split; [intros [?|?]; [discriminate|done] | auto].
Qed.

Lemma fn_finish pick latency ε start s :
  (0 ≤ ε)%Z → (∀ name, (latency name ≤ ε)%Z) →
  (start ≤ (Server.fn pick latency start s).2
   ≤ start + Z.max (Server.MaxCloseWaitTime s) MaxCloseWaitTime + ε)%Z.
Proof.
  intros Hε Hlat. unfold Server.fn. rewrite <- closeWaitTime_max.
  pose proof (fan_out_dones_bound (Server.failedServices s) start
    (start + Server.closeWaitTime s) latency ε (Server.range pick s) Hlat) as H.
  destruct (Server.fan_out _ _ _ _ _) as [evs dones]. simpl in *.
  split; [apply wg_Wait_lower|].
  apply wg_Wait_upper; [|done].
  rewrite closeWaitTime_max. unfold MaxCloseWaitTime, Second. lia.
Qed.

(** ** The once-guard under concurrent callers *)

Section Once.
Import Callers.

Lemma lookup_move σ i p c j x :
  move i p c σ !! j = Some x →
  (j = i ∧ x = {| at_pc := p; ch := c |}) ∨ (j ≠ i ∧ callers σ !! j = Some x).
Proof.
  unfold move. intros H. apply list_lookup_insert_Some in H.
  destruct H as [(-> & -> & _)|(? & ?)]; [left|right]; auto.
Qed.

Lemma lookup_move_here σ i p c q d :
  callers σ !! i = Some {| at_pc := q; ch := d |} →
  move i p c σ !! i = Some {| at_pc := p; ch := c |}.
Proof.
  intros H. unfold move. apply list_lookup_insert_eq.
  by eapply lookup_lt_Some.
Qed.

(** Moving a caller that was not in [fn] cannot hide a caller that is. *)
Lemma nobody_in_fn_before σ i p c q d :
  callers σ !! i = Some {| at_pc := q; ch := d |} → q ≠ InFn →
  (∀ j e, move i p c σ !! j ≠ Some {| at_pc := InFn; ch := e |}) →
  ∀ j e, callers σ !! j ≠ Some {| at_pc := InFn; ch := e |}.
Proof.
  intros Hi Hq Hafter j e Hj. destruct (decide (j = i)) as [->|Hne].
  - rewrite Hi in Hj. congruence.
  - apply (Hafter j e). unfold move. by rewrite list_lookup_insert_ne.
Qed.

Lemma invariant_init s chs : invariant (init s chs).
Proof.
  split; simpl.
  - intros i c H. rewrite list_lookup_fmap in H.
    destruct (chs !! i); simpl in H; congruence.
  - intros i c H. rewrite list_lookup_fmap in H.
    destruct (chs !! i); simpl in H; congruence.
  - done.
  - lia.
Qed.

Lemma body_runs_app l1 l2 : body_runs (l1 ++ l2) = body_runs l1 + body_runs l2.
Proof.
  induction l1 as [|[] l1 IH]; simpl; auto.
Qed.

(** A caller at a point other than [AtOnceCheck] and [InFn] moves to
    another such point and leaves the mutex, the flag and the log alone. *)
Lemma invariant_move σ i p c q d srv' :
  invariant σ →
  callers σ !! i = Some {| at_pc := q; ch := d |} →
  q ≠ InFn → p ≠ InFn → p ≠ AtOnceCheck →
  Server.closeOnce srv' = Server.closeOnce (server σ) →
  invariant {| server := srv'; once_m := once_m σ;
               callers := move i p c σ; log := log σ |}.
Proof.
  intros [Hc Hf Hidle Honce] Hi Hq Hp1 Hp2 Hsrv. split; simpl.
  - intros j e Hj. apply lookup_move in Hj as [[_ Heq]|[_ Hj]]; [congruence|eauto].
  - intros j e Hj. rewrite Hsrv.
    apply lookup_move in Hj as [[_ Heq]|[_ Hj]]; [congruence|eauto].
  - rewrite Hsrv. intros Hdone Hnone. apply Hidle; [done|].
    by eapply nobody_in_fn_before.
  - done.
Qed.

Lemma invariant_step σ σ' : invariant σ → step σ σ' → invariant σ'.
Proof.
  intros Hinv Hstep.
  destruct Hstep as
    [σ i c Hi Hch | σ i c Hi Hch | σ i c Hi Hch | σ i c Hi Hdone
    | σ i c Hi Hdone | σ i c Hi Hfree | σ i c Hi Hdone
    | σ i c pick latency start Hi Hdone Hpick | σ i c Hi
    | σ i c c' Hi Hack | σ i c reason Hi Hack];
    try (eapply invariant_move; eauto; congruence).
  - (* the mutex is taken: nobody held it *)
    destruct Hinv as [Hc Hf Hidle Honce]. split; simpl.
    + intros j e Hj. apply lookup_move in Hj as [[-> _]|[_ Hj]]; [done|].
      apply Hc in Hj. congruence.
    + intros j e Hj. apply lookup_move in Hj as [[_ Heq]|[_ Hj]]; [congruence|].
      apply Hf in Hj as [Hj _]. congruence.
    + intros Hdone Hnone. apply Hidle; [done|].
      eapply nobody_in_fn_before; eauto; congruence.
    + done.
  - (* the flag was set in the meantime: unlock and leave *)
    destruct Hinv as [Hc Hf Hidle Honce]. pose proof (Hc _ _ Hi) as Hm.
    split; simpl.
    + intros j e Hj. apply lookup_move in Hj as [[_ Heq]|[Hne Hj]]; [congruence|].
      apply Hc in Hj. congruence.
    + intros j e Hj. apply lookup_move in Hj as [[_ Heq]|[Hne Hj]]; [congruence|].
      apply Hf in Hj as [Hj _]. congruence.
    + congruence.
    + done.
  - (* fn is entered: it had not run *)
    destruct Hinv as [Hc Hf Hidle Honce]. pose proof (Hc _ _ Hi) as Hm.
    assert (body_runs (log σ) = 0) as Hzero.
    { apply Hidle; [done|]. intros j e Hj.
      destruct (Hf _ _ Hj) as [Hj' _].
      assert (j = i) as -> by congruence. congruence. }
    split; simpl.
    + intros j e Hj. apply lookup_move in Hj as [[_ Heq]|[_ Hj]]; [congruence|eauto].
    + intros j e Hj. apply lookup_move in Hj as [[-> _]|[_ Hj]]; [done|eauto].
    + intros _ Hnone. exfalso. eapply Hnone. by eapply lookup_move_here.
    + rewrite body_runs_app, fn_body_runs, Hzero. lia.
  - (* fn returns: the flag is set and the mutex released *)
    destruct Hinv as [Hc Hf Hidle Honce]. destruct (Hf _ _ Hi) as [Hm _].
    split; simpl.
    + intros j e Hj. apply lookup_move in Hj as [[_ Heq]|[Hne Hj]]; [congruence|].
      apply Hc in Hj. congruence.
    + intros j e Hj. apply lookup_move in Hj as [[_ Heq]|[Hne Hj]]; [congruence|].
      apply Hf in Hj as [Hj _]. congruence.
    + discriminate.
    + done.
Qed.

Lemma invariant_reachable s chs σ : reachable s chs σ → invariant σ.
Proof.
  unfold reachable. intros Hrun.
  eapply (rtc_ind_r (λ σ, invariant σ) (init s chs)); [| |exact Hrun].
  - apply invariant_init.
  - intros ??? IH Hstep. by eapply invariant_step.
Qed.

End Once.

(** ** Close, one caller at a time *)

Lemma acknowledge_accepts ch :
  accepts ch → ∃ ch', Server.acknowledge ch = Returned ch'.
Proof.
  destruct ch as [c|]; simpl; [|eauto].
  intros [Hopen Hroom]. unfold chan_send. rewrite Hopen.
  destruct (ch_recvq c) as [|w]; [|eauto].
  destruct Hroom as [?|Hroom]; [lia|].
  apply Nat.ltb_lt in Hroom. rewrite Hroom. eauto.
Qed.

Lemma close_closeCh_open s :
  Server.closeCh s ≠ Some ChClosed →
  ∃ s1, Server.close_closeCh s = Returned s1 ∧
        Server.closeOnce s1 = Server.closeOnce s ∧
        Server.MaxCloseWaitTime s1 = Server.MaxCloseWaitTime s ∧
        Server.services s1 = Server.services s ∧
        Server.failedServices s1 = Server.failedServices s.
Proof.
  unfold Server.close_closeCh. intros H.
  destruct (Server.closeCh s) as [[]|]; [eauto 10|done|eauto 10].
Qed.

Lemma close_closeCh_twice s :
  Server.closeCh s = Some ChClosed →
  Server.close_closeCh s = Panicked "close of closed channel".
Proof. unfold Server.close_closeCh. by intros ->. Qed.

(** [fn] reads the wait, the services and the failed names, nothing else. *)
Lemma fn_ext pick latency start s1 s :
  Server.MaxCloseWaitTime s1 = Server.MaxCloseWaitTime s →
  Server.services s1 = Server.services s →
  Server.failedServices s1 = Server.failedServices s →
  Server.fn pick latency start s1 = Server.fn pick latency start s.
Proof.
  intros H1 H2 H3.
  unfold Server.fn, Server.closeWaitTime, Server.range. by rewrite H1, H2, H3.
Qed.

(** A call that gets past [closeCh] and can deliver its acknowledgement
    returns nil; it has run [fn] exactly when [closeOnce] was not done. *)
Lemma Close_returns pick latency start ch s :
  Server.closeCh s ≠ Some ChClosed → accepts ch →
  let r := Server.Close pick latency start ch s in
  Server.result r = Returned None ∧
  Server.acknowledge ch = Returned (Server.ack r) ∧
  Server.closeOnce (Server.server r) = true ∧
  (Server.events r, Server.finish r)
  = if Server.closeOnce s then ([], start) else Server.fn pick latency start s.
Proof.
  intros Hch Hack.
  destruct (close_closeCh_open s Hch) as (s1 & Hs1 & Honce & Hw & Hm & Hf).
  destruct (acknowledge_accepts ch Hack) as [ch' Hch'].
  unfold Server.Close, Server.tryClose. rewrite Hs1, Honce, Hch'.
  destruct (Server.closeOnce s) eqn:Hdone; simpl.
  - by rewrite Honce.
  - rewrite (fn_ext pick latency start s1 s Hw Hm Hf).
    by destruct (Server.fn pick latency start s).
Qed.

(** Whatever happens, [fn] is entered at most when [closeOnce] was not
    done, and [closeOnce] is done whenever [fn] was entered. *)
Lemma Close_once pick latency start ch s :
  let r := Server.Close pick latency start ch s in
  body_runs (Server.events r) ≤ (if Server.closeOnce s then 0 else 1) ∧
  (Server.closeOnce s = true ∨ body_runs (Server.events r) = 1 →
   Server.closeOnce (Server.server r) = true).
Proof.
  unfold Server.Close, Server.close_closeCh.
  assert (∀ s1, Server.closeOnce s1 = Server.closeOnce s →
    let r := (let '(s2, evs, t2) := Server.tryClose pick latency start s1 in
              match Server.acknowledge ch with
              | Returned ch' =>
                  {| Server.result := Returned None; Server.server := s2;
                     Server.ack := ch'; Server.events := evs; Server.finish := t2 |}
              | Panicked reason =>
                  {| Server.result := Panicked reason; Server.server := s2;
                     Server.ack := ch; Server.events := evs; Server.finish := t2 |}
              | Blocked =>
                  {| Server.result := Blocked; Server.server := s2;
                     Server.ack := ch; Server.events := evs; Server.finish := t2 |}
              end) in
    body_runs (Server.events r) ≤ (if Server.closeOnce s then 0 else 1) ∧
    (Server.closeOnce s = true ∨ body_runs (Server.events r) = 1 →
     Server.closeOnce (Server.server r) = true)) as Hrest.
  { intros s1 Hs1. unfold Server.tryClose. rewrite Hs1.
    destruct (Server.closeOnce s) eqn:Hdone.
    - destruct (Server.acknowledge ch); simpl; split; auto.
    - pose proof (fn_body_runs pick latency start s1) as Hruns.
      destruct (Server.fn pick latency start s1) as [evs t2]. simpl in Hruns.
      destruct (Server.acknowledge ch); simpl; rewrite Hruns; split; auto. }
  destruct (Server.closeCh s) as [[]|]; simpl.
  - by apply Hrest.
  - split; [destruct (Server.closeOnce s); lia|]. intros [?|?]; [done|lia].
  - by apply Hrest.
Qed.

Lemma Close_all_once pick latency start chs s :
  body_runs (concat (Server.events <$> Server.Close_all pick latency start chs s))
  ≤ (if Server.closeOnce s then 0 else 1).
Proof.
  revert start s. induction chs as [|ch chs IH]; intros start s; simpl.
  - destruct (Server.closeOnce s); lia.
  - rewrite body_runs_app.
    destruct (Close_once pick latency start ch s) as [Hle Hdone].
    specialize (IH (Server.finish (Server.Close pick latency start ch s))
                   (Server.server (Server.Close pick latency start ch s))).
    cbv zeta in Hle, Hdone. unfold fmap in IH.
    destruct (Server.closeOnce s) eqn:Hs.
    + rewrite Hdone in IH by auto. simpl in IH. lia.
    + destruct (decide (body_runs
        (Server.events (Server.Close pick latency start ch s)) = 1)) as [H1|H1].
      * rewrite Hdone in IH by auto. simpl in IH. lia.
      * destruct (Server.closeOnce (Server.server _)); lia.
Qed.

(** ** A caller alone *)

Section Alone.
Import Callers.
Context (pick : range_order) (Hpick : is_range_order pick).
Context (latency : string → Duration).

Local Abbreviation at_ p c := {| at_pc := p; ch := c |}.
Local Abbreviation St s m cs l := {| server := s; once_m := m; callers := cs; log := l |}.

Lemma run_closeCh i c s m cs l :
  cs !! i = Some (at_ AtCloseCh c) →
  match Server.close_closeCh s with
  | Returned s1 => rtc step (St s m cs l) (St s1 m (<[i := at_ AtOnceLoad c]> cs) l)
  | Panicked reason =>
      rtc step (St s m cs l) (St s m (<[i := at_ (Crashed reason) c]> cs) l)
  | Blocked => False
  end.
Proof.
  intros Hi. unfold Server.close_closeCh.
  destruct (Server.closeCh s) as [[]|] eqn:Hch; apply rtc_once.
  - by apply (step_closeCh_open (St s m cs l) i c).
  - by apply (step_closeCh_closed (St s m cs l) i c).
  - by apply (step_closeCh_nil (St s m cs l) i c).
Qed.

Lemma run_tryClose start i c s cs l :
  cs !! i = Some (at_ AtOnceLoad c) →
  rtc step (St s None cs l)
    (St (Server.tryClose pick latency start s).1.1 None
        (<[i := at_ AtAck c]> cs)
        (l ++ (Server.tryClose pick latency start s).1.2)).
Proof.
  intros Hi. pose proof (lookup_lt_Some _ _ _ Hi) as Hlt.
  unfold Server.tryClose. destruct (Server.closeOnce s) eqn:Hdone; simpl.
  - rewrite app_nil_r. apply rtc_once.
    by apply (step_once_fast (St s None cs l) i c).
  - destruct (Server.fn pick latency start s) as [evs t2] eqn:Hfn. simpl.
    eapply rtc_l; [by apply (step_once_slow (St s None cs l) i c)|]. simpl.
    eapply rtc_l.
    { apply (step_once_lock (St s None (move i AtOnceLock c (St s None cs l)) l) i c);
        [by apply list_lookup_insert_eq|done]. }
    unfold move. simpl. rewrite list_insert_insert_eq.
    eapply rtc_l.
    { apply (step_once_run (St s (Some i) (<[i := at_ AtOnceCheck c]> cs) l)
               i c pick latency start);
        [by apply list_lookup_insert_eq|done|done]. }
    unfold move. simpl. rewrite list_insert_insert_eq, Hfn. simpl.
    eapply rtc_l.
    { apply (step_fn_return (St s (Some i) (<[i := at_ InFn c]> cs) (l ++ evs)) i c).
      by apply list_lookup_insert_eq. }
    unfold move. simpl. rewrite list_insert_insert_eq. apply rtc_refl.
Qed.

Lemma run_acknowledge i c s m cs l :
  cs !! i = Some (at_ AtAck c) →
  rtc step (St s m cs l)
    (St s m (<[i := match Server.acknowledge c with
                    | Returned c' => at_ (Finished None) c'
                    | Panicked reason => at_ (Crashed reason) c
                    | Blocked => at_ AtAck c
                    end]> cs) l).
Proof.
  intros Hi. destruct (Server.acknowledge c) as [c'|reason|] eqn:Hack.
  - apply rtc_once. by apply (step_ack (St s m cs l) i c c').
  - apply rtc_once. by apply (step_ack_panic (St s m cs l) i c reason).
  - rewrite list_insert_id by done. apply rtc_refl.
Qed.

(** A call of [Close] by a caller that is alone is a run of that caller. *)
Lemma Close_is_a_run_at start i c s cs l :
  cs !! i = Some (at_ AtCloseCh c) →
  let r := Server.Close pick latency start c s in
  rtc step (St s None cs l)
    (St (Server.server r) None
        (<[i := at_ (ends_at (Server.result r)) (Server.ack r)]> cs)
        (l ++ Server.events r)).
Proof.
  intros Hi r. pose proof (lookup_lt_Some _ _ _ Hi) as Hlt.
  pose proof (run_closeCh i c s None cs l Hi) as H1.
  unfold r, Server.Close.
  destruct (Server.close_closeCh s) as [s1|reason|]; [|by rewrite app_nil_r|done].
  pose proof (run_tryClose start i c s1 (<[i := at_ AtOnceLoad c]> cs) l
                (list_lookup_insert_eq _ _ _ Hlt)) as H2.
  rewrite list_insert_insert_eq in H2.
  destruct (Server.tryClose pick latency start s1) as [[s2 evs] t2]. simpl in H2.
  pose proof (run_acknowledge i c s2 None (<[i := at_ AtAck c]> cs) (l ++ evs)
                (list_lookup_insert_eq _ _ _ Hlt)) as H3.
  rewrite list_insert_insert_eq in H3.
  etrans; [exact H1|]. etrans; [exact H2|].
  by destruct (Server.acknowledge c).
Qed.

(** Calls of [Close] made one after the other are one of the
    interleavings: each caller runs alone from its first step to its
    last. *)
Lemma Close_all_is_a_run chs : ∀ before s l t,
  ∃ s' cs',
    rtc step (St s None (before ++ ((λ c, at_ AtCloseCh c) <$> chs)) l)
      (St s' None cs'
          (l ++ concat (Server.events <$> Server.Close_all pick latency t chs s))).
Proof.
  induction chs as [|c chs IH]; intros before s l t; simpl.
  - exists s, (before ++ []). rewrite !app_nil_r. apply rtc_refl.
  - set (r := Server.Close pick latency t c s).
    set (cs := before ++ at_ AtCloseCh c :: ((λ c, at_ AtCloseCh c) <$> chs)).
    assert (cs !! length before = Some (at_ AtCloseCh c)) as Hi
      by apply list_lookup_middle, eq_refl.
    pose proof (Close_is_a_run_at t (length before) c s cs l Hi) as Hrun.
    unfold cs in Hrun. rewrite insert_app_r_alt, Nat.sub_diag in Hrun by done.
    simpl in Hrun.
    destruct (IH (before ++ [at_ (ends_at (Server.result r)) (Server.ack r)])
                 (Server.server r) (l ++ Server.events r) (Server.finish r))
      as (s' & cs' & Hrest).
    rewrite <- !app_assoc in Hrest. simpl in Hrest.
    exists s', cs'. etrans; [exact Hrun|exact Hrest].
Qed.
End Alone.

Lemma sequential_is_reachable pick latency start chs s :
  is_range_order pick →
  ∃ σ, Callers.reachable s chs σ ∧
       Callers.log σ
       = concat (Server.events <$> Server.Close_all pick latency start chs s).
Proof.
  intros Hpick.
  destruct (Close_all_is_a_run pick Hpick latency chs [] s [] start)
    as (s' & cs' & Hrun).
  eexists. split; [exact Hrun|]. done.
Qed.

(** ** Calls of Close in a row *)



(** On a registry whose [closeCh] is open, a call that returns leaves it
    closed, and the next call panics before it reaches [tryClose]. *)
Lemma Close_twice_panics pick latency start ch ch' t s :
  Server.closeCh s = Some ChOpen →
  accepts ch →
  let first := Server.Close pick latency start ch s in
  Server.result first = Returned None ∧
  Server.closeCh (Server.server first) = Some ChClosed ∧
  Server.result (Server.Close pick latency t ch' (Server.server first))
  = Panicked "close of closed channel".
Proof.
  intros Hopen Hack first.
  assert (Server.closeCh (Server.server first) = Some ChClosed) as Hclosed.
  { unfold first, Server.Close, Server.close_closeCh, Server.tryClose.
    rewrite Hopen. simpl. destruct (Server.closeOnce s).
    - by destruct (Server.acknowledge ch).
    - destruct (Server.fn _ _ _ _) as [evs t2].
      by destruct (Server.acknowledge ch). }
  split; [|split; [done|]].
  - apply Close_returns; [by rewrite Hopen | done].
  - unfold Server.Close. by rewrite (close_closeCh_twice _ Hclosed).
Qed.

(** ** Helpers for the properties below *)

Lemma Close_past_closeCh pick latency start ch s :
  Server.closeCh s ≠ Some ChClosed →
  let r := Server.Close pick latency start ch s in
  Server.closeOnce (Server.server r) = true ∧
  (Server.events r, Server.finish r)
  = (if Server.closeOnce s then ([], start) else Server.fn pick latency start s) ∧
  Server.result r = match Server.acknowledge ch with
                    | Returned _ => Returned None
                    | Panicked reason => Panicked reason
                    | Blocked => Blocked
                    end.
Proof.
  intros Hch.
  destruct (close_closeCh_open s Hch) as (s1 & Hs1 & Honce & Hw & Hm & Hf).
  unfold Server.Close, Server.tryClose. rewrite Hs1, Honce.
  destruct (Server.closeOnce s) eqn:Hdone; simpl.
  - destruct (Server.acknowledge ch); simpl; by rewrite ?Honce.
  - rewrite (fn_ext pick latency start s1 s Hw Hm Hf).
    destruct (Server.fn pick latency start s).
    by destruct (Server.acknowledge ch).
Qed.

Lemma closeCh_closed_or_not s :
  Server.closeCh s = Some ChClosed ∨ Server.closeCh s ≠ Some ChClosed.
Proof. destruct (Server.closeCh s) as [[]|]; auto. Qed.

(** The instant at which a call of [Close] ends, or gets stuck, is within
    the wait of its start, however the call ends. *)
Lemma Close_finish_bound pick latency ε start ch s :
  (0 ≤ ε)%Z → (∀ name, (latency name ≤ ε)%Z) →
  (start ≤ Server.finish (Server.Close pick latency start ch s)
   ≤ start + Z.max (Server.MaxCloseWaitTime s) MaxCloseWaitTime + ε)%Z.
Proof.
  intros Hε Hlat.
  destruct (closeCh_closed_or_not s) as [Hclosed|Hch].
  - unfold Server.Close. rewrite (close_closeCh_twice _ Hclosed). simpl.
    unfold MaxCloseWaitTime, Second. lia.
  - destruct (Close_past_closeCh pick latency start ch s Hch) as (_ & Hev & _).
    assert (Server.finish (Server.Close pick latency start ch s)
            = (if Server.closeOnce s then ([], start)
               else Server.fn pick latency start s).2) as -> by by rewrite <- Hev.
    destruct (Server.closeOnce s); simpl.
    + unfold MaxCloseWaitTime, Second. lia.
    + by apply fn_finish.
Qed.

(** The send of the acknowledgement goes through exactly on the channels
    that [accepts] describes. *)
Lemma acknowledge_returns_iff ch :
  (∃ ch', Server.acknowledge ch = Returned ch') ↔ accepts ch.
Proof.
  split; [|apply acknowledge_accepts].
  destruct ch as [c|]; simpl; [|done]. unfold chan_send.
  destruct (ch_closed c); [by intros [? ?]|].
  destruct (ch_recvq c) as [|w]; [|intros _; split; [done|left; lia]].
  destruct (ch_len c <? ch_cap c)%nat eqn:Hroom; [|by intros [? ?]].
  apply Nat.ltb_lt in Hroom. intros _. split; [done|by right].
Qed.

(** [Close] returns exactly when it gets past [closeCh] and its
    acknowledgement can be delivered; what it returns is nil. *)
Lemma Close_returns_iff pick latency start ch s :
  (∃ err, Server.result (Server.Close pick latency start ch s) = Returned err) ↔
  Server.closeCh s ≠ Some ChClosed ∧ accepts ch.
Proof.
  split.
  - intros [err Hret].
    destruct (closeCh_closed_or_not s) as [Hclosed|Hch].
    { unfold Server.Close in Hret.
      by rewrite (close_closeCh_twice _ Hclosed) in Hret. }
    split; [done|]. apply acknowledge_returns_iff.
    destruct (Close_past_closeCh pick latency start ch s Hch) as (_ & _ & Hres).
    rewrite Hres in Hret. destruct (Server.acknowledge ch); [eauto|done|done].
  - intros [Hch Hack]. exists None. by apply Close_returns.
Qed.

(** When the loop of [Register] returns nil it has called every entry it
    was given. *)
Lemma Register_loop_nil_calls l desc impl name srv :
  (Server.Register_loop l desc impl).2 = None →
  (name, srv) ∈ l →
  EvRegister name srv desc impl ∈ (Server.Register_loop l desc impl).1.
Proof.
  induction l as [|[n e] l IH]; simpl; [intros _ H; inversion H|].
  destruct (Service.Register e desc impl) as [err|]; simpl; [done|].
  destruct (Server.Register_loop l desc impl) as [evs r]. simpl in *.
  intros Hr Hin. apply elem_of_cons in Hin as [[= -> ->]|Hin]; [left|].
  right. by apply IH.
Qed.

(** The loop of [Register] calls an entry when every entry before it in
    the order accepted, whatever the entry itself and those after it do. *)
Lemma Register_loop_reaches pre name srv post desc impl :
  Forall (accepts_registration desc impl) pre →
  EvRegister name srv desc impl
    ∈ (Server.Register_loop (pre ++ (name, srv) :: post) desc impl).1.
Proof.
  induction 1 as [|[n e] pre Hn _ IH]; simpl.
  - destruct (Service.Register srv desc impl); [left|].
    destruct (Server.Register_loop post desc impl). left.
  - unfold accepts_registration in Hn. simpl in Hn. rewrite Hn.
    destruct (Server.Register_loop (pre ++ (name, srv) :: post) desc impl).
    by right.
Qed.

(** * The properties of the specification *)

(** C1. However many callers invoke [Close] on a registry, one after the
    other or interleaved in any way, the shutdown body [fn] is entered at
    most once: in every state [σ] that some interleaving of the callers'
    steps reaches, the calls made so far hold at most one run of the body,
    and so do the calls made by [Close]s that run to their end one by
    one. *)
Theorem shutdown_body_runs_at_most_once s chs σ :
  Callers.reachable s chs σ →
  body_runs (Callers.log σ) ≤ 1 ∧
  ∀ pick latency start,
    body_runs (concat (Server.events <$> Server.Close_all pick latency start chs s)) ≤ 1.
Proof.
  intros Hrun. split.
  - apply invariant_reachable in Hrun. by destruct Hrun.
  - intros pick latency start.
    pose proof (Close_all_once pick latency start chs s) as H.
    destruct (Server.closeOnce s); lia.
Qed.

Lemma shutdown_body_runs_at_most_once_witness :
  Callers.reachable three [None; None] both_finished ∧
  body_runs (Callers.log both_finished) ≤ 1 ∧
  ∀ pick latency start,
    body_runs (concat (Server.events <$>
      Server.Close_all pick latency start [None; None] three)) ≤ 1.
Proof.
  assert (Callers.reachable three [None; None] both_finished) as Hrun.
  { unfold Callers.reachable, Callers.init. simpl.
    eapply rtc_l; [eapply (Callers.step_closeCh_nil _ 0 None); reflexivity|]; simpl.
    eapply rtc_l; [eapply (Callers.step_closeCh_nil _ 1 None); reflexivity|]; simpl.
    eapply rtc_l; [eapply (Callers.step_once_slow _ 0 None); reflexivity|]; simpl.
    eapply rtc_l; [eapply (Callers.step_once_slow _ 1 None); reflexivity|]; simpl.
    eapply rtc_l; [eapply (Callers.step_once_lock _ 0 None); reflexivity|]; simpl.
    eapply rtc_l; [eapply (Callers.step_once_run _ 0 None id no_latency 0%Z);
                   [reflexivity|reflexivity|intros l; reflexivity]|]; simpl.
    eapply rtc_l; [eapply (Callers.step_fn_return _ 0 None); reflexivity|]; simpl.
    eapply rtc_l; [eapply (Callers.step_once_lock _ 1 None); reflexivity|]; simpl.
    eapply rtc_l; [eapply (Callers.step_once_late _ 1 None); reflexivity|]; simpl.
    eapply rtc_l; [eapply (Callers.step_ack _ 0 None None); reflexivity|]; simpl.
    eapply rtc_l; [eapply (Callers.step_ack _ 1 None None); reflexivity|]; simpl.
    apply rtc_refl. }
  split; [exact Hrun|].
  exact (shutdown_body_runs_at_most_once three [None; None] both_finished Hrun).
Defined.




(** C3. [closeCh] is to be closed once, by the first call of [Close], and
    left alone by the later ones. The code closes it outside the
    once-guard: on a registry whose [closeCh] was made, the first call
    closes it and returns nil, and the second call closes it again, which
    is a run-time panic; the shutdown body is not entered again. *)
Theorem second_Close_closes_closeCh_again :
  let first := Server.Close id no_latency 0%Z None announced in
  let second := Server.Close id no_latency (Server.finish first) None
                  (Server.server first) in
  Server.result first = Returned None ∧
  Server.closeCh (Server.server first) = Some ChClosed ∧
  Server.result second = Panicked "close of closed channel" ∧
  Server.events second = [].
Proof. vm_compute. repeat split; reflexivity. Qed.

(** C4. [Register] with a descriptor that is not a pointer to a
    [ServiceDesc] returns the error "service desc type invalid" and calls
    no entry. *)
Theorem Register_rejects_invalid_desc pick serviceDesc serviceImpl s :
  (∀ p, serviceDesc ≠ AnyDescPtr p) →
  Server.Register pick serviceDesc serviceImpl s
  = ([], Some (errors_New "service desc type invalid")).
Proof.
  intros Hd. unfold Server.Register.
  destruct serviceDesc; simpl; try done. by destruct (Hd p).
Qed.

Lemma Register_rejects_invalid_desc_witness :
  (∀ p, AnyDesc echo ≠ AnyDescPtr p) ∧
  Server.Register id (AnyDesc echo) AnyNil three
  = ([], Some (errors_New "service desc type invalid")).
Proof.
  assert (∀ p, AnyDesc echo ≠ AnyDescPtr p) as Hd by (intros p; discriminate).
  split; [exact Hd|].
  exact (Register_rejects_invalid_desc id (AnyDesc echo) AnyNil three Hd).
Defined.

(** C5. When the loop of [Register] visits the entries [pre], then
    [(name, srv)], then [post], the entries of [pre] accept and [srv]
    returns [err], then [Register] returns [err] itself, the calls made are
    the registrations of [pre] and of [srv] and nothing else (nothing is
    undone), and no entry of [post] is called. *)
Theorem Register_fails_fast pick desc impl s pre name srv post err :
  is_range_order pick →
  Server.range pick s = pre ++ (name, srv) :: post →
  Forall (λ e, Service.Register e.2 (AnyDescPtr desc) impl = None) pre →
  Service.Register srv (AnyDescPtr desc) impl = Some err →
  Server.Register pick (AnyDescPtr desc) impl s
  = (registrations (AnyDescPtr desc) impl pre
       ++ [EvRegister name srv (AnyDescPtr desc) impl], Some err) ∧
  ∀ name' srv', (name', srv') ∈ post →
    ∀ e d i, EvRegister name' e d i
               ∉ (Server.Register pick (AnyDescPtr desc) impl s).1.
Proof.
  intros Hpick Hrange Hpre Herr.
  assert (Server.Register pick (AnyDescPtr desc) impl s
          = (registrations (AnyDescPtr desc) impl pre
               ++ [EvRegister name srv (AnyDescPtr desc) impl], Some err)) as Heq.
  { unfold Server.Register. simpl. rewrite Hrange.
    by apply Register_loop_stops. }
  split; [done|].
  intros name' srv' Hpost e d i Hin.
  pose proof (range_NoDup_names pick Hpick s) as Hnd.
  rewrite Hrange, fmap_app, fmap_cons in Hnd.
  apply NoDup_app in Hnd as (_ & Hdisj & Hnd). simpl in *.
  apply NoDup_cons in Hnd as [Hhead _].
  assert (name' ∈ post.*1) as Hname'.
  { apply list_elem_of_fmap. by exists (name', srv'). }
  rewrite Heq in Hin. simpl in Hin.
  apply elem_of_app in Hin as [Hin|Hin].
  - unfold registrations in Hin. apply list_elem_of_fmap in Hin as ([n x] & Hev & Hx).
    inversion Hev; subst. apply (Hdisj n).
    + apply list_elem_of_fmap. by exists (n, x).
    + by right.
  - apply list_elem_of_singleton in Hin. inversion Hin; subst. done.
Qed.

Lemma Register_fails_fast_witness :
  is_range_order id ∧
  Server.range id three = [("c", quick)] ++ ("a", broken) :: [("b", slow)] ∧
  Forall (λ e, Service.Register e.2 (AnyDescPtr (Some echo)) AnyNil = None)
    [("c", quick)] ∧
  Service.Register broken (AnyDescPtr (Some echo)) AnyNil
  = Some (errors_New "method not found") ∧
  Server.Register id (AnyDescPtr (Some echo)) AnyNil three
  = (registrations (AnyDescPtr (Some echo)) AnyNil [("c", quick)]
       ++ [EvRegister "a" broken (AnyDescPtr (Some echo)) AnyNil],
     Some (errors_New "method not found")) ∧
  ∀ name' srv', (name', srv') ∈ [("b", slow)] →
    ∀ e d i, EvRegister name' e d i
               ∉ (Server.Register id (AnyDescPtr (Some echo)) AnyNil three).1.
Proof.
  assert (is_range_order id) as Hid by (intros l; reflexivity).
  assert (Server.range id three = [("c", quick)] ++ ("a", broken) :: [("b", slow)])
    as Hrange by (vm_compute; reflexivity).
  assert (Forall (λ e, Service.Register e.2 (AnyDescPtr (Some echo)) AnyNil = None)
            [("c", quick)]) as Hpre by (repeat constructor).
  assert (Service.Register broken (AnyDescPtr (Some echo)) AnyNil
          = Some (errors_New "method not found")) as Herr by reflexivity.
  split; [exact Hid|]. split; [exact Hrange|]. split; [exact Hpre|].
  split; [exact Herr|].
  exact (Register_fails_fast id (Some echo) AnyNil three [("c", quick)] "a" broken
           [("b", slow)] (errors_New "method not found") Hid Hrange Hpre Herr).
Defined.

(** C6. The wait the shutdown body passes to [context.WithTimeout] is the
    larger of the configured [MaxCloseWaitTime] and the package's floor of
    10 seconds: it is never below the floor and it is the configured value
    when that is at least the floor. *)
Theorem closeWaitTime_is_floored pick latency start s :
  MaxCloseWaitTime = (10 * Second)%Z ∧
  Server.closeWaitTime s = Z.max (Server.MaxCloseWaitTime s) MaxCloseWaitTime ∧
  (MaxCloseWaitTime ≤ Server.closeWaitTime s)%Z ∧
  ((MaxCloseWaitTime ≤ Server.MaxCloseWaitTime s)%Z →
   Server.closeWaitTime s = Server.MaxCloseWaitTime s) ∧
  ∃ evs, (Server.fn pick latency start s).1
         = EvWithTimeout (Z.max (Server.MaxCloseWaitTime s) MaxCloseWaitTime) :: evs
         ∧ body_runs evs = 0.
Proof.
  pose proof (closeWaitTime_max s) as Hmax.
  split; [done|]. split; [done|]. split; [lia|]. split; [lia|].
  unfold Server.fn. rewrite <- Hmax.
  pose proof (fan_out_only_closes (Server.failedServices s) start
    (start + Server.closeWaitTime s) latency (Server.range pick s)) as [H _].
  destruct (Server.fan_out _ _ _ _ _) as [evs dones]. simpl in *. eauto.
Qed.

(** C7. In a run of the shutdown body, no entry whose name is in
    [failedServices] has its [Close] called, and every entry of the
    registry whose name is not in it has. *)
Theorem failed_services_are_skipped pick latency start s :
  is_range_order pick →
  (∀ name srv, name ∈ Server.failedServices s →
               EvClose name srv ∉ (Server.fn pick latency start s).1) ∧
  (∀ name srv, Server.Service name s = Some srv →
               name ∉ Server.failedServices s →
               EvClose name srv ∈ (Server.fn pick latency start s).1) ∧
  (∀ name srv, EvClose name srv ∈ (Server.fn pick latency start s).1 →
               Server.Service name s = Some srv).
Proof.
  intros Hpick. repeat split.
  - intros name srv Hfailed Hin. apply fn_calls in Hin as [_ Hout]. done.
  - intros name srv Hsrv Hout. apply fn_calls. split; [|done].
    by apply range_lookup.
  - intros name srv Hin. apply fn_calls in Hin as [Hin _].
    by apply (range_lookup pick Hpick).
Qed.

Lemma failed_services_are_skipped_witness :
  is_range_order id ∧
  (∀ name srv, name ∈ Server.failedServices three_a_failed →
     EvClose name srv ∉ (Server.fn id no_latency 0%Z three_a_failed).1) ∧
  (∀ name srv, Server.Service name three_a_failed = Some srv →
     name ∉ Server.failedServices three_a_failed →
     EvClose name srv ∈ (Server.fn id no_latency 0%Z three_a_failed).1) ∧
  (∀ name srv, EvClose name srv ∈ (Server.fn id no_latency 0%Z three_a_failed).1 →
     Server.Service name three_a_failed = Some srv).
Proof.
  assert (is_range_order id) as Hid by (intros l; reflexivity).
  split; [exact Hid|].
  exact (failed_services_are_skipped id no_latency 0%Z three_a_failed Hid).
Defined.

(** C8. After [AddService name e1] and then [AddService name e2], the
    registry is the one [AddService name e2] alone gives: [Service name]
    returns [e2], and the entry a [range] visits under [name] is [e2]. It is
    [e2] that takes part in registration: a call of [Register] made under
    [name] is made to [e2]; [e2] is called whenever [Register] returns nil,
    and whenever the descriptor is a pointer and the entries visited
    before [e2] accept. It is [e2] that takes part in shutdown: the
    shutdown body calls [Close] under [name] on [e2] and on nothing else. *)
Theorem AddService_last_write_wins pick name e1 e2 s desc impl latency start :
  is_range_order pick →
  let s' := Server.AddService name e2 (Server.AddService name e1 s) in
  s' = Server.AddService name e2 s ∧
  Server.Service name s' = Some e2 ∧
  (∀ e, (name, e) ∈ Server.range pick s' ↔ e = e2) ∧
  (∀ e d i, EvRegister name e d i ∈ (Server.Register pick desc impl s').1 → e = e2) ∧
  ((Server.Register pick desc impl s').2 = None →
   EvRegister name e2 desc impl ∈ (Server.Register pick desc impl s').1) ∧
  (∃ pre post, Server.range pick s' = pre ++ (name, e2) :: post ∧
     ∀ p, desc = AnyDescPtr p →
          Forall (accepts_registration desc impl) pre →
          EvRegister name e2 desc impl ∈ (Server.Register pick desc impl s').1) ∧
  (∀ e, EvClose name e ∈ (Server.fn pick latency start s').1
        ↔ e = e2 ∧ name ∉ Server.failedServices s).
Proof.
  intros Hpick s'.
  assert (s' = Server.AddService name e2 s) as Hs'.
  { unfold s', Server.AddService, Server.with_services. simpl.
    by rewrite insert_insert_eq. }
  assert (Server.Service name s' = Some e2) as Hlookup.
  { unfold s', Server.Service, Server.AddService. simpl. apply lookup_insert_eq. }
  assert (∀ e, (name, e) ∈ Server.range pick s' ↔ e = e2) as Hrange.
  { intros e. rewrite (range_lookup pick Hpick), Hlookup.
    split; [congruence | by intros ->]. }
  assert ((name, e2) ∈ Server.range pick s') as Hin2 by by apply Hrange.
  split; [done|]. split; [done|]. split; [done|]. split; [|split; [|split]].
  - intros e d i. unfold Server.Register.
    destruct (assert_desc_ptr desc) as [p []]; simpl.
    + intros Hin. apply Register_loop_calls in Hin as [Hin _]. by apply Hrange.
    + intros Hin. inversion Hin.
  - unfold Server.Register. destruct desc as [|p| | |]; simpl; try done.
    intros Hnil. by apply Register_loop_nil_calls.
  - apply list_elem_of_split in Hin2 as (pre & post & Hsplit).
    exists pre, post. split; [done|]. intros p -> Hpre.
    unfold Server.Register. simpl. rewrite Hsplit.
    by apply Register_loop_reaches.
  - intros e. split.
    + intros H. pose proof H as H'. apply fn_calls in H as [Hin _].
      apply fn_calls in H' as [_ Hout]. split; [by apply Hrange|done].
    + intros [-> Hout]. apply fn_calls. split; [by apply Hrange|done].
Qed.

Lemma AddService_last_write_wins_witness :
  is_range_order id ∧
  Server.AddService "a" quick (Server.AddService "a" slow three)
  = Server.AddService "a" quick three ∧
  Server.Service "a" (Server.AddService "a" quick (Server.AddService "a" slow three))
  = Some quick ∧
  (∀ e, ("a", e) ∈ Server.range id
          (Server.AddService "a" quick (Server.AddService "a" slow three))
        ↔ e = quick) ∧
  (∀ e d i,
     EvRegister "a" e d i
       ∈ (Server.Register id (AnyDescPtr (Some echo)) AnyNil
            (Server.AddService "a" quick (Server.AddService "a" slow three))).1 →
     e = quick) ∧
  ((Server.Register id (AnyDescPtr (Some echo)) AnyNil
      (Server.AddService "a" quick (Server.AddService "a" slow three))).2 = None →
   EvRegister "a" quick (AnyDescPtr (Some echo)) AnyNil
     ∈ (Server.Register id (AnyDescPtr (Some echo)) AnyNil
          (Server.AddService "a" quick (Server.AddService "a" slow three))).1) ∧
  (∃ pre post,
     Server.range id (Server.AddService "a" quick (Server.AddService "a" slow three))
     = pre ++ ("a", quick) :: post ∧
     ∀ p, AnyDescPtr (Some echo) = AnyDescPtr p →
          Forall (accepts_registration (AnyDescPtr (Some echo)) AnyNil) pre →
          EvRegister "a" quick (AnyDescPtr (Some echo)) AnyNil
            ∈ (Server.Register id (AnyDescPtr (Some echo)) AnyNil
                 (Server.AddService "a" quick (Server.AddService "a" slow three))).1) ∧
  (∀ e, EvClose "a" e
          ∈ (Server.fn id no_latency 0%Z
               (Server.AddService "a" quick (Server.AddService "a" slow three))).1
        ↔ e = quick ∧ "a" ∉ Server.failedServices three).
Proof.
  assert (is_range_order id) as Hid by (intros l; reflexivity).
  split; [exact Hid|].
  exact (AddService_last_write_wins id "a" slow quick three
           (AnyDescPtr (Some echo)) AnyNil no_latency 0%Z Hid).
Defined.

(** C9, as the code has it. With the hand-over of every goroutine of the
    fan-out taking at most [ε], the shutdown of a call of [Close] is over
    no later than [max(MaxCloseWaitTime, floor) + ε] after the call
    started, whether the entries signal or not: each wait of the fan-out
    ends at the one deadline at the latest. The call returns at that
    instant when its caller passed no channel or a channel that takes the
    acknowledgement at once; on a channel that is open and cannot take it,
    the call stays in its send. The call on a registry whose [closeCh] an
    earlier call has closed is left out of the last two statements (C3). *)
Theorem Close_returns_within_deadline pick latency ε start ch s :
  (0 ≤ ε)%Z →
  (∀ name, (latency name ≤ ε)%Z) →
  (start ≤ Server.finish (Server.Close pick latency start ch s)
   ≤ start + Z.max (Server.MaxCloseWaitTime s) MaxCloseWaitTime + ε)%Z ∧
  (Server.closeCh s ≠ Some ChClosed → accepts ch →
   Server.result (Server.Close pick latency start ch s) = Returned None) ∧
  (Server.closeCh s ≠ Some ChClosed →
   ∀ c, ch = Some c → chan_send c = SendBlocks →
        Server.result (Server.Close pick latency start ch s) = Blocked ∧
        Server.closeOnce (Server.server (Server.Close pick latency start ch s)) = true).
Proof.
  intros Hε Hlat. split; [by apply Close_finish_bound|]. split.
  - intros Hch Hack. by apply Close_returns.
  - intros Hch c -> Hsend.
    destruct (Close_past_closeCh pick latency start (Some c) s Hch) as (Hd & _ & Hr).
    split; [|done]. rewrite Hr. simpl. by rewrite Hsend.
Qed.

Lemma Close_returns_within_deadline_witness :
  (0 ≤ 5)%Z ∧ (∀ name : string, ((λ _, 5%Z) name ≤ 5)%Z) ∧
  Server.closeCh three ≠ Some ChClosed ∧ accepts None ∧
  (0 ≤ Server.finish (Server.Close id (λ _, 5%Z) 0%Z None three)
   ≤ 0 + Z.max (Server.MaxCloseWaitTime three) MaxCloseWaitTime + 5)%Z ∧
  Server.result (Server.Close id (λ _, 5%Z) 0%Z None three) = Returned None.
Proof.
  assert (0 ≤ 5)%Z as Hε by lia.
  assert (∀ name : string, ((λ _, 5%Z) name ≤ 5)%Z) as Hlat by (intros _; simpl; lia).
  assert (Server.closeCh three ≠ Some ChClosed) as Hch by (simpl; discriminate).
  assert (accepts None) as Hack by exact I.
  split; [exact Hε|]. split; [exact Hlat|]. split; [exact Hch|]. split; [exact Hack|].
  pose proof (Close_returns_within_deadline id (λ _, 5%Z) 5%Z 0%Z None three Hε Hlat)
    as (Hbound & Hret & _).
  split; [exact Hbound|exact (Hret Hch Hack)].
Defined.

(** C9 as it was stated fails: [Close] does not always return. On a
    registry without entries, a caller whose buffered channel is full and
    has no receiver waits in its send although there was nothing to close:
    the call is stuck from its first instant on and does not return at the
    deadline either. *)
Lemma Close_with_full_channel_blocks_for_ever :
  Server.result (Server.Close id no_latency 0%Z (Some full) Server.zero) = Blocked ∧
  Server.result (Server.Close id no_latency 0%Z (Some full) Server.zero)
  ≠ Returned None ∧
  Server.finish (Server.Close id no_latency 0%Z (Some full) Server.zero) = 0%Z.
Proof.
  split; [vm_compute; reflexivity|].
  split; [intros H; vm_compute in H; discriminate H|vm_compute; reflexivity].
Qed.

(** C10. On a registry whose [services] map is nil, as it is until
    [AddService] is called, [Service] returns nil for every name, and
    [Register] with a pointer to a [ServiceDesc] returns nil without
    calling any entry. *)
Theorem nil_services_are_total s :
  Server.services s = None →
  (∀ name, Server.Service name s = None) ∧
  (∀ pick p impl, Server.Register pick (AnyDescPtr p) impl s = ([], None)).
Proof.
  intros Hnil. split.
  - intros name. unfold Server.Service. by rewrite Hnil.
  - intros pick p impl. unfold Server.Register, Server.range. simpl.
    by rewrite Hnil.
Qed.

Lemma nil_services_are_total_witness :
  Server.services Server.zero = None ∧
  (∀ name, Server.Service name Server.zero = None) ∧
  (∀ pick p impl, Server.Register pick (AnyDescPtr p) impl Server.zero = ([], None)).
Proof.
  split; [reflexivity|].
  exact (nil_services_are_total Server.zero eq_refl).
Defined.

(** * The registry [three] at work *)

(** The third entry is never asked to register. *)
Example three_Register :
  Server.Register id (AnyDescPtr (Some echo)) AnyNil three
  = ([EvRegister "c" quick (AnyDescPtr (Some echo)) AnyNil;
      EvRegister "a" broken (AnyDescPtr (Some echo)) AnyNil],
     Some (errors_New "method not found")).
Proof. vm_compute. reflexivity. Qed.

(** Visited in the opposite order, "b" and "a" are asked and "c" is not:
    which entries are left unregistered depends on the order of the range. *)
Example three_Register_reversed :
  Server.Register reverse (AnyDescPtr (Some echo)) AnyNil three
  = ([EvRegister "b" slow (AnyDescPtr (Some echo)) AnyNil;
      EvRegister "a" broken (AnyDescPtr (Some echo)) AnyNil],
     Some (errors_New "method not found")).
Proof. vm_compute. reflexivity. Qed.

(** "a" never signals, so the body ends at the deadline of ten seconds,
    the configured second being below the floor. *)
Example three_Close :
  let r := Server.Close id no_latency 0%Z None three in
  Server.result r = Returned None ∧
  Server.events r = [EvWithTimeout MaxCloseWaitTime;
                     EvClose "c" quick; EvClose "a" broken; EvClose "b" slow] ∧
  Server.finish r = MaxCloseWaitTime.
Proof. vm_compute. repeat split; reflexivity. Qed.

(** With "a" marked as failed the body ends when "b" signals. *)
Example three_a_failed_Close :
  let r := Server.Close id no_latency 0%Z None three_a_failed in
  Server.events r = [EvWithTimeout MaxCloseWaitTime;
                     EvClose "c" quick; EvClose "b" slow] ∧
  Server.finish r = (2 * Second)%Z.
Proof. vm_compute. repeat split; reflexivity. Qed.

(** A configured wait above the floor is kept. *)
Example closeWaitTime_above_floor :
  Server.closeWaitTime
    {| Server.MaxCloseWaitTime := (30 * Second)%Z; Server.services := None;
       Server.failedServices := ∅; Server.closeCh := None;
       Server.closeOnce := false |}
  = (30 * Second)%Z.
Proof. reflexivity. Qed.

(** A caller with an unbuffered channel nobody receives from gets stuck at
    its send, after the shutdown body has run. *)
Example Close_blocks_on_unread_channel :
  let r := Server.Close id no_latency 0%Z
             (Some {| ch_cap := 0; ch_len := 0; ch_recvq := 0; ch_closed := false |})
             three in
  Server.result r = Blocked ∧ body_runs (Server.events r) = 1.
Proof. vm_compute. split; reflexivity. Qed.

(** * Further properties of the code *)

(** ** The registry as a map *)

Lemma Service_AddService name e s name' :
  Server.Service name' (Server.AddService name e s)
  = if decide (name' = name) then Some e else Server.Service name' s.
Proof.
  unfold Server.Service, Server.AddService. simpl.
  destruct (decide (name' = name)) as [->|Hne].
  - apply lookup_insert_eq.
  - rewrite lookup_insert_ne by done. by destruct (Server.services s).
Qed.

(** X1. [AddService] then [Service]: the name just added gives the entry
    just added, every other name gives what it gave before, on a registry
    whose map is nil as well; the other fields of the registry are left as
    they were and the map is not nil afterwards. *)
Theorem AddService_then_Service name e s name' :
  Server.Service name' (Server.AddService name e s)
  = (if decide (name' = name) then Some e else Server.Service name' s) ∧
  Server.services (Server.AddService name e s) ≠ None ∧
  Server.MaxCloseWaitTime (Server.AddService name e s) = Server.MaxCloseWaitTime s ∧
  Server.failedServices (Server.AddService name e s) = Server.failedServices s ∧
  Server.closeCh (Server.AddService name e s) = Server.closeCh s ∧
  Server.closeOnce (Server.AddService name e s) = Server.closeOnce s.
Proof. split; [apply Service_AddService|]. by repeat split. Qed.

(** X2. Two [AddService]s under different names give the same registry in
    either order. *)
Theorem AddService_commutes name1 e1 name2 e2 s :
  name1 ≠ name2 →
  Server.AddService name1 e1 (Server.AddService name2 e2 s)
  = Server.AddService name2 e2 (Server.AddService name1 e1 s).
Proof.
  intros Hne. unfold Server.AddService, Server.with_services. simpl.
  by rewrite insert_insert_ne.
Qed.

Lemma AddService_commutes_witness :
  "a" ≠ "b" ∧
  Server.AddService "a" quick (Server.AddService "b" slow Server.zero)
  = Server.AddService "b" slow (Server.AddService "a" quick Server.zero).
Proof.
  assert ("a" ≠ "b") as Hne by discriminate.
  split; [exact Hne|].
  exact (AddService_commutes "a" quick "b" slow Server.zero Hne).
Defined.

(** ** The broadcast of Register *)

Lemma Register_loop_nil l desc impl :
  (Server.Register_loop l desc impl).2 = None ↔
  Forall (accepts_registration desc impl) l.
Proof.
  induction l as [|[n e] l IH]; simpl.
  - split; [constructor|done].
  - rewrite Forall_cons. unfold accepts_registration at 1. simpl.
    destruct (Service.Register e desc impl) as [err|] eqn:He; simpl.
    + split; [done|by intros [? _]].
    + destruct (Server.Register_loop l desc impl) as [evs r]. simpl in *.
      rewrite IH. tauto.
Qed.

(** The calls the loop makes are the registrations of the entries it got
    to: a first part of the list. *)
Lemma Register_loop_prefix l desc impl :
  ∃ k, (Server.Register_loop l desc impl).1 = registrations desc impl (take k l) ∧
       Forall (accepts_registration desc impl) (take (pred k) l) ∧
       ((Server.Register_loop l desc impl).2 = None → k = length l).
Proof.
  induction l as [|[n e] l (k & Hevs & Hpre & Hnil)]; simpl.
  - exists 0. by repeat split.
  - destruct (Service.Register e desc impl) as [err|] eqn:He; simpl.
    + exists 1. by repeat split.
    + destruct (Server.Register_loop l desc impl) as [evs r]. simpl in *.
      exists (S k). split; [by rewrite Hevs|]. split.
      * destruct k as [|k]; simpl; [constructor|]. by constructor.
      * intros Hr. by rewrite Hnil.
Qed.

Lemma Register_loop_failure l desc impl evs err :
  Server.Register_loop l desc impl = (evs, Some err) →
  ∃ pre name srv post,
    l = pre ++ (name, srv) :: post ∧
    Forall (accepts_registration desc impl) pre ∧
    Service.Register srv desc impl = Some err ∧
    evs = registrations desc impl pre ++ [EvRegister name srv desc impl].
Proof.
  revert evs. induction l as [|[n e] l IH]; intros evs; simpl; [done|].
  destruct (Service.Register e desc impl) as [err'|] eqn:He.
  - intros [= <- <-]. by exists [], n, e, l.
  - destruct (Server.Register_loop l desc impl) as [evs' r] eqn:Hl.
    intros [= <- ->].
    destruct (IH evs' eq_refl) as (pre & name & srv & post & -> & Hpre & Herr & ->).
    exists ((n, e) :: pre), name, srv, post. repeat split; [|done].
    by constructor.
Qed.

Lemma registered_names_registrations desc impl l :
  registered_names (registrations desc impl l) = l.*1.
Proof. induction l as [|[n e] l IH]; simpl; [done|]. by f_equal. Qed.

Lemma NoDup_take_names (l : list (string * Service.t)) k :
  NoDup l.*1 → NoDup (take k l).*1.
Proof.
  intros Hnd. rewrite fmap_take.
  eapply sublist_NoDup; [exact Hnd|apply sublist_take].
Qed.

(** X3. [Register] returns nil exactly when the descriptor is a pointer to
    a [ServiceDesc] and every entry of the registry accepts it. *)
Theorem Register_nil_iff pick serviceDesc serviceImpl s :
  is_range_order pick →
  (Server.Register pick serviceDesc serviceImpl s).2 = None ↔
  ∃ p, serviceDesc = AnyDescPtr p ∧
       ∀ name srv, Server.Service name s = Some srv →
                   Service.Register srv (AnyDescPtr p) serviceImpl = None.
Proof.
  intros Hpick. unfold Server.Register.
  destruct serviceDesc as [|p| | |]; simpl;
    try (split; [done|by intros (? & ? & _)]).
  rewrite Register_loop_nil, Forall_forall. split.
  - intros Hall. exists p. split; [done|]. intros name srv Hsrv.
    apply (Hall (name, srv)). by apply range_lookup.
  - intros (p' & [= <-] & Hall) [name srv] Hin.
    apply (Hall name srv). by apply (range_lookup pick Hpick).
Qed.

Lemma Register_nil_iff_witness :
  is_range_order id ∧
  ((Server.Register id (AnyDescPtr (Some echo)) AnyNil two_ab).2 = None ↔
   ∃ p, AnyDescPtr (Some echo) = AnyDescPtr p ∧
        ∀ name srv, Server.Service name two_ab = Some srv →
                    Service.Register srv (AnyDescPtr p) AnyNil = None).
Proof.
  assert (is_range_order id) as Hid by (intros l; reflexivity).
  split; [exact Hid|].
  exact (Register_nil_iff id (AnyDescPtr (Some echo)) AnyNil two_ab Hid).
Defined.

(** X4. When every entry of the registry accepts, [Register] returns nil
    and has called every entry, once each, with the descriptor and the
    implementation it was given. *)
Theorem Register_reaches_every_entry pick p impl s :
  is_range_order pick →
  (∀ name srv, Server.Service name s = Some srv →
               Service.Register srv (AnyDescPtr p) impl = None) →
  Server.Register pick (AnyDescPtr p) impl s
  = (registrations (AnyDescPtr p) impl (Server.range pick s), None) ∧
  (∀ name srv, Server.Service name s = Some srv ↔
     EvRegister name srv (AnyDescPtr p) impl
       ∈ (Server.Register pick (AnyDescPtr p) impl s).1) ∧
  registered_names (Server.Register pick (AnyDescPtr p) impl s).1
  ≡ₚ elements (dom (default ∅ (Server.services s))).
Proof.
  intros Hpick Hall.
  assert (Server.Register pick (AnyDescPtr p) impl s
          = (registrations (AnyDescPtr p) impl (Server.range pick s), None)) as Heq.
  { unfold Server.Register. simpl. apply Register_loop_all_ok.
    apply Forall_forall. intros [name srv] Hin. apply (Hall name srv).
    by apply (range_lookup pick Hpick). }
  rewrite Heq. simpl. repeat split.
  - intros Hsrv. unfold registrations. apply list_elem_of_fmap.
    exists (name, srv). split; [done|]. by apply range_lookup.
  - unfold registrations. intros Hin.
    apply list_elem_of_fmap in Hin as ([n e] & [= -> ->] & Hin).
    by apply (range_lookup pick Hpick).
  - rewrite registered_names_registrations. unfold Server.range.
    destruct (Server.services s) as [m|]; simpl.
    + rewrite (Hpick (map_to_list m)). apply NoDup_Permutation.
      * apply NoDup_fst_map_to_list.
      * apply NoDup_elements.
      * intros name. rewrite elem_of_elements, elem_of_dom, list_elem_of_fmap.
        split.
        -- intros ([n e] & -> & Hin). apply elem_of_map_to_list in Hin. by exists e.
        -- intros [e He]. exists (name, e). split; [done|].
           by apply elem_of_map_to_list.
    + by rewrite dom_empty_L, elements_empty.
Qed.

Lemma Register_reaches_every_entry_witness :
  is_range_order id ∧
  (∀ name srv, Server.Service name two_ab = Some srv →
               Service.Register srv (AnyDescPtr (Some echo)) AnyNil = None) ∧
  Server.Register id (AnyDescPtr (Some echo)) AnyNil two_ab
  = (registrations (AnyDescPtr (Some echo)) AnyNil (Server.range id two_ab), None) ∧
  (∀ name srv, Server.Service name two_ab = Some srv ↔
     EvRegister name srv (AnyDescPtr (Some echo)) AnyNil
       ∈ (Server.Register id (AnyDescPtr (Some echo)) AnyNil two_ab).1) ∧
  registered_names (Server.Register id (AnyDescPtr (Some echo)) AnyNil two_ab).1
  ≡ₚ elements (dom (default ∅ (Server.services two_ab))).
Proof.
  assert (is_range_order id) as Hid by (intros l; reflexivity).
  assert (∀ name srv, Server.Service name two_ab = Some srv →
            Service.Register srv (AnyDescPtr (Some echo)) AnyNil = None) as Hall.
  { intros name srv Hsrv.
    apply (range_lookup id Hid) in Hsrv. vm_compute in Hsrv.
    apply elem_of_cons in Hsrv as [[= _ ->]|Hsrv]; [reflexivity|].
    apply elem_of_cons in Hsrv as [[= _ ->]|Hsrv]; [reflexivity|].
    inversion Hsrv. }
  split; [exact Hid|]. split; [exact Hall|].
  exact (Register_reaches_every_entry id (Some echo) AnyNil two_ab Hid Hall).
Defined.

(** X5. An error [Register] returns for a pointer descriptor is the one the
    entry called last returned; that entry is an entry of the registry, and
    every entry called before it accepted. *)
Theorem Register_error_comes_from_the_last_call pick p impl s evs err :
  is_range_order pick →
  Server.Register pick (AnyDescPtr p) impl s = (evs, Some err) →
  ∃ pre name srv,
    evs = registrations (AnyDescPtr p) impl pre
            ++ [EvRegister name srv (AnyDescPtr p) impl] ∧
    Server.Service name s = Some srv ∧
    Service.Register srv (AnyDescPtr p) impl = Some err ∧
    Forall (λ e, Server.Service e.1 s = Some e.2 ∧
                 Service.Register e.2 (AnyDescPtr p) impl = None) pre.
Proof.
  intros Hpick Hreg. unfold Server.Register in Hreg. simpl in Hreg.
  apply Register_loop_failure in Hreg
    as (pre & name & srv & post & Hrange & Hpre & Herr & ->).
  exists pre, name, srv. repeat split; [|done|].
  - apply (range_lookup pick Hpick). rewrite Hrange.
    apply elem_of_app. right. left.
  - apply Forall_forall. intros [n e] Hin. split.
    + apply (range_lookup pick Hpick). rewrite Hrange.
      apply elem_of_app. by left.
    + by apply (proj1 (Forall_forall _ _) Hpre (n, e)).
Qed.

Lemma Register_error_comes_from_the_last_call_witness :
  is_range_order id ∧
  Server.Register id (AnyDescPtr (Some echo)) AnyNil three
  = ([EvRegister "c" quick (AnyDescPtr (Some echo)) AnyNil;
      EvRegister "a" broken (AnyDescPtr (Some echo)) AnyNil],
     Some (errors_New "method not found")) ∧
  ∃ pre name srv,
    [EvRegister "c" quick (AnyDescPtr (Some echo)) AnyNil;
     EvRegister "a" broken (AnyDescPtr (Some echo)) AnyNil]
    = registrations (AnyDescPtr (Some echo)) AnyNil pre
        ++ [EvRegister name srv (AnyDescPtr (Some echo)) AnyNil] ∧
    Server.Service name three = Some srv ∧
    Service.Register srv (AnyDescPtr (Some echo)) AnyNil
    = Some (errors_New "method not found") ∧
    Forall (λ e, Server.Service e.1 three = Some e.2 ∧
                 Service.Register e.2 (AnyDescPtr (Some echo)) AnyNil = None) pre.
Proof.
  assert (is_range_order id) as Hid by (intros l; reflexivity).
  assert (Server.Register id (AnyDescPtr (Some echo)) AnyNil three
          = ([EvRegister "c" quick (AnyDescPtr (Some echo)) AnyNil;
              EvRegister "a" broken (AnyDescPtr (Some echo)) AnyNil],
             Some (errors_New "method not found"))) as Hreg
    by (vm_compute; reflexivity).
  split; [exact Hid|]. split; [exact Hreg|].
  exact (Register_error_comes_from_the_last_call id (Some echo) AnyNil three _ _
           Hid Hreg).
Defined.

(** X6. Whatever [Register] returns, every call it makes is a registration
    of an entry of the registry, under the key the entry is stored at, with
    the descriptor and the implementation it was given; the descriptor is
    then a pointer to a [ServiceDesc], a nil one included; and no key is
    called twice. *)
Theorem Register_calls_entries_once pick serviceDesc serviceImpl s :
  is_range_order pick →
  (∀ ev, ev ∈ (Server.Register pick serviceDesc serviceImpl s).1 →
     ∃ name srv p,
       ev = EvRegister name srv serviceDesc serviceImpl ∧
       serviceDesc = AnyDescPtr p ∧
       Server.Service name s = Some srv) ∧
  NoDup (registered_names (Server.Register pick serviceDesc serviceImpl s).1).
Proof.
  intros Hpick. unfold Server.Register.
  destruct serviceDesc as [|p| | |]; simpl;
    try (split; [intros ev Hin; inversion Hin | constructor]).
  destruct (Register_loop_prefix (Server.range pick s) (AnyDescPtr p) serviceImpl)
    as (k & Hevs & _ & _).
  rewrite Hevs. split.
  - intros ev Hin. unfold registrations in Hin.
    apply list_elem_of_fmap in Hin as ([n e] & -> & Hin). simpl.
    exists n, e, p. repeat split.
    apply (range_lookup pick Hpick).
    by apply (subseteq_take k (Server.range pick s)).
  - rewrite registered_names_registrations. apply NoDup_take_names.
    by apply range_NoDup_names.
Qed.

Lemma Register_calls_entries_once_witness :
  is_range_order reverse ∧
  (∀ ev, ev ∈ (Server.Register reverse (AnyDescPtr None) AnyNil three).1 →
     ∃ name srv p,
       ev = EvRegister name srv (AnyDescPtr None) AnyNil ∧
       AnyDescPtr None = AnyDescPtr p ∧
       Server.Service name three = Some srv) ∧
  NoDup (registered_names (Server.Register reverse (AnyDescPtr None) AnyNil three).1).
Proof.
  assert (is_range_order reverse) as Hrev by (intros l; apply reverse_Permutation).
  split; [exact Hrev|].
  exact (Register_calls_entries_once reverse (AnyDescPtr None) AnyNil three Hrev).
Defined.

(** ** The shutdown body *)

Lemma elem_of_closed_names name evs :
  name ∈ closed_names evs ↔ ∃ srv, EvClose name srv ∈ evs.
Proof.
  unfold closed_names. rewrite list_elem_of_omap. split.
  - intros (ev & Hin & Hev). destruct ev; simplify_eq. eauto.
  - intros [srv Hin]. by exists (EvClose name srv).
Qed.

Lemma fan_out_closed_names failed start deadline latency l :
  closed_names (Server.fan_out failed start deadline latency l).1
  = filter (λ name, name ∉ failed) l.*1.
Proof.
  induction l as [|[n e] l IH]; simpl; [done|].
  rewrite filter_cons. simpl. destruct (decide (n ∈ failed)) as [Hin|Hout].
  - rewrite decide_False by (by intros ?). done.
  - rewrite decide_True by done.
    destruct (Server.fan_out failed start deadline latency l) as [evs dones].
    simpl in *. by rewrite IH.
Qed.

Lemma fn_closed_names pick latency start s :
  closed_names (Server.fn pick latency start s).1
  = filter (λ name, name ∉ Server.failedServices s) (Server.range pick s).*1.
Proof.
  unfold Server.fn.
  pose proof (fan_out_closed_names (Server.failedServices s) start
    (start + Server.closeWaitTime s) latency (Server.range pick s)) as H.
  by destruct (Server.fan_out _ _ _ _ _) as [evs dones].
Qed.

Lemma range_names pick s :
  is_range_order pick →
  ∀ name, name ∈ (Server.range pick s).*1
          ↔ name ∈ dom (default ∅ (Server.services s)).
Proof.
  intros Hpick name. rewrite elem_of_dom, list_elem_of_fmap. split.
  - intros ([n e] & -> & Hin). apply (range_lookup pick Hpick) in Hin.
    unfold Server.Service in Hin. destruct (Server.services s); [|done].
    by exists e.
  - intros [e He]. exists (name, e). split; [done|].
    apply (range_lookup pick Hpick). unfold Server.Service.
    destruct (Server.services s); [done|]. simpl in He.
    by rewrite lookup_empty in He.
Qed.

(** X7. One run of the shutdown body calls [Close] once under each name of
    the registry that is not marked as failed, and under no other name. *)
Theorem fn_closes_each_entry_once pick latency start s :
  is_range_order pick →
  NoDup (closed_names (Server.fn pick latency start s).1) ∧
  closed_names (Server.fn pick latency start s).1 ≡ₚ elements (names_to_close s).
Proof.
  intros Hpick. rewrite fn_closed_names.
  assert (NoDup (filter (λ name, name ∉ Server.failedServices s)
                   (Server.range pick s).*1)) as Hnd.
  { apply NoDup_filter. by apply range_NoDup_names. }
  split; [done|].
  apply NoDup_Permutation; [done|apply NoDup_elements|].
  intros name. unfold names_to_close.
  rewrite list_elem_of_filter, elem_of_elements, elem_of_difference.
  rewrite (range_names pick s Hpick). tauto.
Qed.

Lemma fn_closes_each_entry_once_witness :
  is_range_order reverse ∧
  NoDup (closed_names (Server.fn reverse no_latency 0%Z three_a_failed).1) ∧
  closed_names (Server.fn reverse no_latency 0%Z three_a_failed).1
  ≡ₚ elements (names_to_close three_a_failed).
Proof.
  assert (is_range_order reverse) as Hrev by (intros l; apply reverse_Permutation).
  split; [exact Hrev|].
  exact (fn_closes_each_entry_once reverse no_latency 0%Z three_a_failed Hrev).
Defined.

(** ** What a call of Close leaves *)

Lemma Close_fields pick latency start ch s :
  let r := Server.Close pick latency start ch s in
  Server.services (Server.server r) = Server.services s ∧
  Server.failedServices (Server.server r) = Server.failedServices s ∧
  Server.MaxCloseWaitTime (Server.server r) = Server.MaxCloseWaitTime s.
Proof.
  unfold Server.Close, Server.close_closeCh, Server.tryClose.
  destruct (Server.closeCh s) as [[]|]; simpl; try done;
    destruct (Server.closeOnce s); simpl;
    try destruct (Server.fn _ _ _ _) as [evs t2];
    by destruct (Server.acknowledge ch).
Qed.

Lemma Close_shuts pick latency start ch s :
  shut (Server.server (Server.Close pick latency start ch s)).
Proof.
  unfold shut, Server.Close, Server.close_closeCh, Server.tryClose.
  destruct (Server.closeCh s) as [[]|] eqn:Hch; simpl; auto;
    destruct (Server.closeOnce s) eqn:Hdone; simpl;
    try destruct (Server.fn _ _ _ _) as [evs t2];
    destruct (Server.acknowledge ch); simpl; auto.
Qed.

Lemma Close_when_shut pick latency start ch s :
  shut s →
  let r := Server.Close pick latency start ch s in
  Server.events r = [] ∧ Server.finish r = start ∧ Server.server r = s.
Proof.
  unfold Server.Close, Server.close_closeCh, Server.tryClose.
  intros [Hch|[Hch Hdone]]; rewrite Hch; simpl; [done|].
  rewrite Hdone. by destruct (Server.acknowledge ch).
Qed.

Lemma AddService_shut name e s : shut s → shut (Server.AddService name e s).
Proof. unfold shut. simpl. done. Qed.


(** X9. [Close] does not touch the entries: however it ends, the registry
    it leaves has the same map, the same failed names and the same wait, so
    [Service] finds what it found before and [Register] still reaches the
    same entries. *)
Theorem Close_keeps_the_entries pick latency start ch s name pick' desc impl :
  let s' := Server.server (Server.Close pick latency start ch s) in
  Server.services s' = Server.services s ∧
  Server.failedServices s' = Server.failedServices s ∧
  Server.MaxCloseWaitTime s' = Server.MaxCloseWaitTime s ∧
  Server.Service name s' = Server.Service name s ∧
  Server.Register pick' desc impl s' = Server.Register pick' desc impl s.
Proof.
  intros s'. destruct (Close_fields pick latency start ch s) as (Hm & Hf & Hw).
  fold s' in Hm, Hf, Hw. repeat split; try done.
  - unfold Server.Service. by rewrite Hm.
  - unfold Server.Register, Server.range. by rewrite Hm.
Qed.

(** X10. An entry added after a call of [Close] is found by [Service] but
    is never asked to close: a later [Close] calls no entry. *)
Theorem entry_added_after_Close_is_never_closed
    pick latency start ch pick' latency' t ch' name e s :
  let s1 := Server.AddService name e
              (Server.server (Server.Close pick latency start ch s)) in
  Server.Service name s1 = Some e ∧
  Server.events (Server.Close pick' latency' t ch' s1) = [].
Proof.
  intros s1. split.
  - unfold s1, Server.Service, Server.AddService. simpl. apply lookup_insert_eq.
  - apply Close_when_shut, AddService_shut, Close_shuts.
Qed.

(** X11. The acknowledgement comes after the shutdown: on a registry
    whose [closeCh] is nil or still open, when the caller's channel is
    closed, [Close] panics on its send, and by then the shutdown body has
    run as for a caller without a channel and [closeOnce] is done. *)
Theorem Close_panics_on_closed_channel_after_shutdown pick latency start c s :
  ch_closed c = true →
  Server.closeCh s ≠ Some ChClosed →
  let r := Server.Close pick latency start (Some c) s in
  let r0 := Server.Close pick latency start None s in
  Server.result r = Panicked "send on closed channel" ∧
  Server.result r0 = Returned None ∧
  Server.closeOnce (Server.server r) = true ∧
  Server.server r = Server.server r0 ∧
  Server.events r = Server.events r0 ∧
  Server.finish r = Server.finish r0.
Proof.
  intros Hc Hch r r0.
  destruct (Close_past_closeCh pick latency start (Some c) s Hch) as (Hd & He & Hr).
  destruct (Close_past_closeCh pick latency start None s Hch) as (Hd0 & He0 & Hr0).
  fold r in Hd, He, Hr. fold r0 in Hd0, He0, Hr0.
  simpl in Hr, Hr0. unfold chan_send in Hr. rewrite Hc in Hr.
  rewrite <- He0 in He. injection He as Hev Hfin.
  repeat split; try done.
  unfold r, r0, Server.Close.
  destruct (Server.close_closeCh s) as [s1| |]; [|done|done].
  destruct (Server.tryClose pick latency start s1) as [[s2 evs] t2]. simpl.
  unfold chan_send. by rewrite Hc.
Qed.

Lemma Close_panics_on_closed_channel_after_shutdown_witness :
  ch_closed hung_up = true ∧
  Server.closeCh three ≠ Some ChClosed ∧
  Server.result (Server.Close id no_latency 0%Z (Some hung_up) three)
  = Panicked "send on closed channel" ∧
  Server.closeOnce (Server.server (Server.Close id no_latency 0%Z (Some hung_up) three))
  = true.
Proof.
  assert (ch_closed hung_up = true) as Hc by reflexivity.
  assert (Server.closeCh three ≠ Some ChClosed) as Hch by (simpl; discriminate).
  split; [exact Hc|]. split; [exact Hch|].
  pose proof (Close_panics_on_closed_channel_after_shutdown
                id no_latency 0%Z hung_up three Hc Hch) as (H1 & _ & H3 & _).
  split; [exact H1|exact H3].
Defined.

(** X12. On every registry whose [closeCh] is open, a call of [Close]
    closes it, however the call ends, and the next call panics on closing
    it again: it does not get to [tryClose] nor to its acknowledgement. *)
Theorem Close_on_closed_closeCh_panics pick latency start ch pick' latency' t ch' s :
  Server.closeCh s = Some ChOpen →
  let first := Server.Close pick latency start ch s in
  Server.closeCh (Server.server first) = Some ChClosed ∧
  Server.Close pick' latency' t ch' (Server.server first)
  = {| Server.result := Panicked "close of closed channel";
       Server.server := Server.server first; Server.ack := ch';
       Server.events := []; Server.finish := t |}.
Proof.
  intros Hopen first.
  assert (Server.closeCh (Server.server first) = Some ChClosed) as Hclosed.
  { unfold first, Server.Close, Server.close_closeCh, Server.tryClose.
    rewrite Hopen. simpl. destruct (Server.closeOnce s).
    - by destruct (Server.acknowledge ch).
    - destruct (Server.fn _ _ _ _) as [evs t2].
      by destruct (Server.acknowledge ch). }
  split; [done|].
  unfold Server.Close. by rewrite (close_closeCh_twice _ Hclosed).
Qed.

Lemma Close_on_closed_closeCh_panics_witness :
  Server.closeCh announced = Some ChOpen ∧
  Server.closeCh (Server.server (Server.Close id no_latency 0%Z (Some awaited) announced))
  = Some ChClosed ∧
  Server.Close reverse no_latency 7%Z (Some awaited)
    (Server.server (Server.Close id no_latency 0%Z (Some awaited) announced))
  = {| Server.result := Panicked "close of closed channel";
       Server.server :=
         Server.server (Server.Close id no_latency 0%Z (Some awaited) announced);
       Server.ack := Some awaited;
       Server.events := []; Server.finish := 7%Z |}.
Proof.
  assert (Server.closeCh announced = Some ChOpen) as Hopen by reflexivity.
  split; [exact Hopen|].
  exact (Close_on_closed_closeCh_panics id no_latency 0%Z (Some awaited)
           reverse no_latency 7%Z (Some awaited) announced Hopen).
Defined.

(** ** How long the shutdown body takes *)

Lemma fan_out_all_failed failed start deadline latency l :
  Forall (λ e, e.1 ∈ failed) l →
  Server.fan_out failed start deadline latency l = ([], []).
Proof.
  induction 1 as [|[n e] l Hn _ IH]; simpl; [done|].
  simpl in Hn. by rewrite decide_True.
Qed.

Lemma fan_out_dones_early failed start deadline latency ε d l :
  (∀ name, (latency name ≤ ε)%Z) →
  Forall (λ e, e.1 ∉ failed →
               ∃ d', Service.notify_after (Service.Close e.2) = Some d' ∧ (d' ≤ d)%Z) l →
  Forall (λ t, (t ≤ start + d + ε)%Z)
    (Server.fan_out failed start deadline latency l).2.
Proof.
  intros Hlat. induction 1 as [|[n e] l Hn _ IH]; simpl; [constructor|].
  destruct (decide (n ∈ failed)) as [?|Hout]; [done|].
  destruct (Server.fan_out failed start deadline latency l) as [evs dones].
  simpl in *. constructor; [|done].
  destruct (Hn Hout) as (d' & Hd' & Hle). unfold Server.await. rewrite Hd'.
  specialize (Hlat n). lia.
Qed.

Lemma wg_Wait_ge start dones t : t ∈ dones → (t ≤ Server.wg_Wait start dones)%Z.
Proof.
  induction dones as [|t' dones IH]; simpl; [intros H; inversion H|].
  intros H. apply elem_of_cons in H as [->|H]; [lia|]. specialize (IH H). lia.
Qed.

Lemma fan_out_dones_hung failed start deadline latency l name srv :
  (name, srv) ∈ l → name ∉ failed →
  Service.notify_after (Service.Close srv) = None →
  (deadline + latency name)%Z ∈ (Server.fan_out failed start deadline latency l).2.
Proof.
  intros Hin Hout Hnever. induction l as [|[n e] l IH]; [inversion Hin|]. simpl.
  apply elem_of_cons in Hin as [[= <- <-]|Hin].
  - rewrite decide_False by done.
    destruct (Server.fan_out failed start deadline latency l) as [evs dones].
    simpl. unfold Server.await. rewrite Hnever. left.
  - specialize (IH Hin). destruct (decide (n ∈ failed)); [done|].
    destruct (Server.fan_out failed start deadline latency l) as [evs dones].
    simpl in *. by right.
Qed.

(** X13. When the registry is empty, or every entry of it is marked as
    failed, the shutdown body sets up its deadline, calls no entry and
    returns at once. *)
Theorem fn_with_nothing_to_close_returns_at_once pick latency start s :
  is_range_order pick →
  (∀ name srv, Server.Service name s = Some srv → name ∈ Server.failedServices s) →
  Server.fn pick latency start s = ([EvWithTimeout (Server.closeWaitTime s)], start).
Proof.
  intros Hpick Hall. unfold Server.fn. rewrite fan_out_all_failed; [done|].
  apply Forall_forall. intros [n e] Hin. apply (Hall n e).
  by apply (range_lookup pick Hpick).
Qed.

Lemma fn_with_nothing_to_close_returns_at_once_witness :
  is_range_order id ∧
  (∀ name srv, Server.Service name all_failed = Some srv →
               name ∈ Server.failedServices all_failed) ∧
  Server.fn id no_latency 3%Z all_failed
  = ([EvWithTimeout (Server.closeWaitTime all_failed)], 3%Z).
Proof.
  assert (is_range_order id) as Hid by (intros l; reflexivity).
  assert (∀ name srv, Server.Service name all_failed = Some srv →
            name ∈ Server.failedServices all_failed) as Hall.
  { intros name srv Hsrv. apply (range_lookup id Hid) in Hsrv.
    vm_compute in Hsrv. simpl.
    repeat (apply elem_of_cons in Hsrv as [[= -> _]|Hsrv]; [set_solver|]).
    inversion Hsrv. }
  split; [exact Hid|]. split; [exact Hall|].
  exact (fn_with_nothing_to_close_returns_at_once id no_latency 3%Z all_failed Hid Hall).
Defined.

(** X14. The shutdown body does not wait for the deadline when it need
    not: when every entry that is not marked as failed signals within [d],
    it returns within [d + ε], [ε] bounding the hand-over of each
    goroutine. Entries marked as failed do not hold it up. *)
Theorem fn_returns_when_the_entries_are_done pick latency ε d start s :
  is_range_order pick →
  (0 ≤ ε)%Z → (0 ≤ d)%Z →
  (∀ name, (latency name ≤ ε)%Z) →
  (∀ name srv, Server.Service name s = Some srv →
               name ∉ Server.failedServices s →
               ∃ d', Service.notify_after (Service.Close srv) = Some d' ∧ (d' ≤ d)%Z) →
  (start ≤ (Server.fn pick latency start s).2 ≤ start + d + ε)%Z.
Proof.
  intros Hpick Hε Hd Hlat Hall. unfold Server.fn.
  pose proof (fan_out_dones_early (Server.failedServices s) start
    (start + Server.closeWaitTime s) latency ε d (Server.range pick s) Hlat) as H.
  destruct (Server.fan_out _ _ _ _ _) as [evs dones]. simpl in *.
  split; [apply wg_Wait_lower|]. apply wg_Wait_upper; [lia|]. apply H.
  apply Forall_forall. intros [n e] Hin Hout. apply (Hall n e); [|done].
  by apply (range_lookup pick Hpick).
Qed.

Lemma fn_returns_when_the_entries_are_done_witness :
  is_range_order id ∧ (0 ≤ 5)%Z ∧ (0 ≤ 2 * Second)%Z ∧
  (∀ name : string, ((λ _, 5%Z) name ≤ 5)%Z) ∧
  (∀ name srv, Server.Service name three_a_failed = Some srv →
               name ∉ Server.failedServices three_a_failed →
               ∃ d', Service.notify_after (Service.Close srv) = Some d' ∧
                     (d' ≤ 2 * Second)%Z) ∧
  (0 ≤ (Server.fn id (λ _, 5%Z) 0%Z three_a_failed).2 ≤ 0 + 2 * Second + 5)%Z.
Proof.
  assert (is_range_order id) as Hid by (intros l; reflexivity).
  assert (0 ≤ 5)%Z as Hε by lia.
  assert (0 ≤ 2 * Second)%Z as Hd by (unfold Second; lia).
  assert (∀ name : string, ((λ _, 5%Z) name ≤ 5)%Z) as Hlat by (intros _; simpl; lia).
  assert (∀ name srv, Server.Service name three_a_failed = Some srv →
            name ∉ Server.failedServices three_a_failed →
            ∃ d', Service.notify_after (Service.Close srv) = Some d' ∧
                  (d' ≤ 2 * Second)%Z) as Hall.
  { intros name srv Hsrv Hout. apply (range_lookup id Hid) in Hsrv.
    vm_compute in Hsrv. simpl in Hout.
    apply elem_of_cons in Hsrv as [[= -> ->]|Hsrv].
    { exists 0%Z. split; [reflexivity|unfold Second; lia]. }
    apply elem_of_cons in Hsrv as [[= -> ->]|Hsrv]; [set_solver|].
    apply elem_of_cons in Hsrv as [[= -> ->]|Hsrv]; [|inversion Hsrv].
    exists (2 * Second)%Z. split; [reflexivity|lia]. }
  split; [exact Hid|]. split; [exact Hε|]. split; [exact Hd|].
  split; [exact Hlat|]. split; [exact Hall|].
  exact (fn_returns_when_the_entries_are_done id (λ _, 5%Z) 5%Z (2 * Second)%Z 0%Z
           three_a_failed Hid Hε Hd Hlat Hall).
Defined.

(** X15. One entry that is not marked as failed and never signals keeps
    the shutdown body for the whole wait: it returns at the deadline, up to
    the hand-over [ε], and not before. *)
Theorem fn_waits_out_an_entry_that_never_signals pick latency ε start s name srv :
  is_range_order pick →
  (∀ n, (0 ≤ latency n ≤ ε)%Z) →
  Server.Service name s = Some srv →
  name ∉ Server.failedServices s →
  Service.notify_after (Service.Close srv) = None →
  (start + Z.max (Server.MaxCloseWaitTime s) MaxCloseWaitTime
   ≤ (Server.fn pick latency start s).2
   ≤ start + Z.max (Server.MaxCloseWaitTime s) MaxCloseWaitTime + ε)%Z.
Proof.
  intros Hpick Hlat Hsrv Hout Hnever.
  assert (0 ≤ ε)%Z as Hε by (specialize (Hlat name); lia).
  split; [|apply fn_finish; [done|intros n; apply Hlat]].
  rewrite <- closeWaitTime_max. unfold Server.fn.
  apply (range_lookup pick Hpick) in Hsrv.
  pose proof (fan_out_dones_hung (Server.failedServices s) start
    (start + Server.closeWaitTime s) latency (Server.range pick s) name srv
    Hsrv Hout Hnever) as Hin.
  destruct (Server.fan_out _ _ _ _ _) as [evs dones]. simpl in *.
  apply (wg_Wait_ge start) in Hin. specialize (Hlat name). lia.
Qed.

Lemma fn_waits_out_an_entry_that_never_signals_witness :
  is_range_order id ∧ (∀ n : string, (0 ≤ (λ _, 0%Z) n ≤ 0)%Z) ∧
  Server.Service "a" three = Some broken ∧
  ("a" ∉ Server.failedServices three) ∧
  Service.notify_after (Service.Close broken) = None ∧
  (0 + Z.max (Server.MaxCloseWaitTime three) MaxCloseWaitTime
   ≤ (Server.fn id (λ _, 0%Z) 0%Z three).2
   ≤ 0 + Z.max (Server.MaxCloseWaitTime three) MaxCloseWaitTime + 0)%Z.
Proof.
  assert (is_range_order id) as Hid by (intros l; reflexivity).
  assert (∀ n : string, (0 ≤ (λ _, 0%Z) n ≤ 0)%Z) as Hlat by (intros _; simpl; lia).
  assert (Server.Service "a" three = Some broken) as Hsrv by (vm_compute; reflexivity).
  assert ("a" ∉ Server.failedServices three) as Hout by (simpl; set_solver).
  assert (Service.notify_after (Service.Close broken) = None) as Hnever by reflexivity.
  split; [exact Hid|]. split; [exact Hlat|]. split; [exact Hsrv|].
  split; [exact Hout|]. split; [exact Hnever|].
  exact (fn_waits_out_an_entry_that_never_signals id (λ _, 0%Z) 0%Z 0%Z three
           "a" broken Hid Hlat Hsrv Hout Hnever).
Defined.

(** ** Callers of Close side by side *)

Section Settled.
Import Callers.
Context (s0 : Server.t).

Lemma settled_init chs : settled s0 (init s0 chs).
Proof.
  assert (∀ i p c, ((λ c, {| at_pc := AtCloseCh; ch := c |}) <$> chs) !! i
                   = Some {| at_pc := p; ch := c |} → p = AtCloseCh) as Hstart.
  { intros i p c H. rewrite list_lookup_fmap in H.
    destruct (chs !! i); simpl in H; congruence. }
  split; simpl; try done; auto.
  - intros i c H. by apply Hstart in H.
  - intros i c err H. by apply Hstart in H.
  - intros i c H. by apply Hstart in H.
Qed.

(** The step of caller [i] from [q] to [p], when it leaves the log alone
    and [closeOnce] as it is or done. *)
Lemma settled_move σ i p c q d srv' :
  settled s0 σ →
  callers σ !! i = Some {| at_pc := q; ch := d |} →
  Server.services srv' = Server.services (server σ) →
  Server.failedServices srv' = Server.failedServices (server σ) →
  Server.MaxCloseWaitTime srv' = Server.MaxCloseWaitTime (server σ) →
  (Server.closeOnce (server σ) = true → Server.closeOnce srv' = true) →
  (Server.closeOnce srv' = true →
   Server.closeOnce (server σ) = true ∨ q = InFn) →
  p ≠ InFn →
  (p = AtAck → Server.closeOnce srv' = true) →
  (∀ err, p = Finished err → q = AtAck ∧ err = None) →
  ∀ m, settled s0 {| server := srv'; once_m := m;
                     callers := move i p c σ; log := log σ |}.
Proof.
  intros [Hm Hf Hw Hsticky Hpast Hfin Hrun Hdone Hlog] Hi Hm' Hf' Hw' Hmono Hset
    HnotFn Hack Hret m.
  split; simpl; try congruence; auto.
  - intros j e Hj. apply lookup_move in Hj as [[_ Heq]|[_ Hj]].
    + injection Heq as <- _. by apply Hack.
    + eauto.
  - intros j e err Hj. apply lookup_move in Hj as [[_ Heq]|[_ Hj]].
    + injection Heq as <- _. destruct (Hret err eq_refl) as [-> ->].
      split; [done|]. eauto.
    + destruct (Hfin _ _ _ Hj). auto.
  - intros j e Hj. apply lookup_move in Hj as [[_ Heq]|[_ Hj]].
    + injection Heq as <- _. done.
    + eauto.
  - intros Hd'. destruct (Hset Hd') as [Hd| ->]; [auto|]. right. eauto.
Qed.

Lemma settled_step σ σ' :
  invariant σ → settled s0 σ → step σ σ' → settled s0 σ'.
Proof.
  intros Hinv Hset Hstep.
  destruct Hstep as
    [σ i c Hi Hch | σ i c Hi Hch | σ i c Hi Hch | σ i c Hi Hdone
    | σ i c Hi Hdone | σ i c Hi Hfree | σ i c Hi Hdone
    | σ i c pick latency start Hi Hdone Hpick | σ i c Hi
    | σ i c c' Hi Hack | σ i c reason Hi Hack];
    try solve [eapply settled_move; eauto; simpl; try done; auto].
  - (* fn is entered *)
    destruct Hinv as [Hc Hf Hidle Honce]. pose proof (Hc _ _ Hi) as Hlock.
    assert (body_runs (log σ) = 0) as Hzero.
    { apply Hidle; [done|]. intros j e Hj. destruct (Hf _ _ Hj) as [Hj' _].
      assert (j = i) as -> by congruence. congruence. }
    destruct Hset as [Hm Hfl Hw Hsticky Hpast Hfin Hrun Hdn Hlog].
    assert (log σ = []) as Hnil.
    { destruct Hlog as [?|(pk & lat & st & _ & Heq)]; [done|].
      rewrite Heq, fn_body_runs in Hzero. done. }
    split; simpl; try done.
    + intros j e Hj. apply lookup_move in Hj as [[_ Heq]|[_ Hj]]; [done|eauto].
    + intros j e err Hj. apply lookup_move in Hj as [[_ Heq]|[_ Hj]]; [done|eauto].
    + intros j e _. rewrite body_runs_app, fn_body_runs, Hzero. done.
    + congruence.
    + right. exists pick, latency, start. split; [done|].
      rewrite Hnil. simpl. by rewrite (fn_ext pick latency start (server σ) s0).
  - (* the acknowledgement is sent *)
    eapply settled_move; eauto; simpl; try done; auto.
    intros err [= <-]. done.
Qed.

Lemma settled_reachable chs σ : reachable s0 chs σ → settled s0 σ.
Proof.
  unfold reachable. intros Hrun.
  assert (invariant σ ∧ settled s0 σ) as [_ H]; [|done].
  eapply (rtc_ind_r (λ σ, invariant σ ∧ settled s0 σ) (init s0 chs)); [| |exact Hrun].
  - split; [apply invariant_init|apply settled_init].
  - intros ?? _ Hstep [Hinv Hset]. split.
    + by eapply invariant_step.
    + by eapply settled_step.
Qed.

End Settled.

(** X16. A caller of [Close] does not get past [tryClose] before the
    shutdown body has returned, also when another caller is the one running
    it: in every state some interleaving reaches, a caller that has
    returned has returned nil, [closeOnce] is done, and the calls made hold
    one whole run of the body unless [closeOnce] was done from the
    start. *)
Theorem no_caller_returns_before_the_shutdown s chs σ i err c :
  Callers.reachable s chs σ →
  Callers.callers σ !! i
  = Some {| Callers.at_pc := Callers.Finished err; Callers.ch := c |} →
  err = None ∧
  Server.closeOnce (Callers.server σ) = true ∧
  (Server.closeOnce s = true ∨ body_runs (Callers.log σ) = 1).
Proof.
  intros Hrun Hi. apply settled_reachable in Hrun.
  destruct (st_finished _ _ Hrun _ _ _ Hi) as [-> Hdone].
  split; [done|]. split; [done|]. by apply (st_done _ _ Hrun).
Qed.

Lemma both_finished_run : Callers.reachable three [None; None] both_finished.
Proof.
  unfold Callers.reachable, Callers.init. simpl.
  eapply rtc_l; [eapply (Callers.step_closeCh_nil _ 1 None); reflexivity|]; simpl.
  eapply rtc_l; [eapply (Callers.step_once_slow _ 1 None); reflexivity|]; simpl.
  eapply rtc_l; [eapply (Callers.step_closeCh_nil _ 0 None); reflexivity|]; simpl.
  eapply rtc_l; [eapply (Callers.step_once_lock _ 1 None); reflexivity|]; simpl.
  eapply rtc_l; [eapply (Callers.step_once_slow _ 0 None); reflexivity|]; simpl.
  eapply rtc_l; [eapply (Callers.step_once_run _ 1 None id no_latency 0%Z);
                 [reflexivity|reflexivity|intros l; reflexivity]|]; simpl.
  eapply rtc_l; [eapply (Callers.step_fn_return _ 1 None); reflexivity|]; simpl.
  eapply rtc_l; [eapply (Callers.step_ack _ 1 None None); reflexivity|]; simpl.
  eapply rtc_l; [eapply (Callers.step_once_lock _ 0 None); reflexivity|]; simpl.
  eapply rtc_l; [eapply (Callers.step_once_late _ 0 None); reflexivity|]; simpl.
  eapply rtc_l; [eapply (Callers.step_ack _ 0 None None); reflexivity|]; simpl.
  apply rtc_refl.
Qed.

Lemma no_caller_returns_before_the_shutdown_witness :
  Callers.reachable three [None; None] both_finished ∧
  Callers.callers both_finished !! 0
  = Some {| Callers.at_pc := Callers.Finished None; Callers.ch := None |} ∧
  None = None :> error ∧
  Server.closeOnce (Callers.server both_finished) = true ∧
  (Server.closeOnce three = true ∨ body_runs (Callers.log both_finished) = 1).
Proof.
  assert (Callers.callers both_finished !! 0
          = Some {| Callers.at_pc := Callers.Finished None; Callers.ch := None |})
    as Hi by reflexivity.
  split; [exact both_finished_run|]. split; [exact Hi|].
  exact (no_caller_returns_before_the_shutdown three [None; None] both_finished
           0 None None both_finished_run Hi).
Defined.

(** X17. With any number of callers of [Close] side by side, the calls
    made to the entries are at any moment none, or those of one run of the
    shutdown body on the registry as it was: [Close] is called at most once
    under a name, only on the entry stored under it, and never under a
    name marked as failed. *)
Theorem callers_close_each_entry_at_most_once s chs σ :
  Callers.reachable s chs σ →
  NoDup (closed_names (Callers.log σ)) ∧
  ∀ name srv, EvClose name srv ∈ Callers.log σ →
    Server.Service name s = Some srv ∧ name ∉ Server.failedServices s.
Proof.
  intros Hrun. apply settled_reachable in Hrun.
  destruct (st_log _ _ Hrun) as [->|(pick & latency & start & Hpick & ->)].
  - split; [constructor|]. intros ?? H. inversion H.
  - split.
    + rewrite fn_closed_names. apply NoDup_filter. by apply range_NoDup_names.
    + intros name srv Hin. apply fn_calls in Hin as [Hin Hout].
      split; [|done]. by apply (range_lookup pick Hpick).
Qed.

Lemma callers_close_each_entry_at_most_once_witness :
  Callers.reachable three [None; None] both_finished ∧
  NoDup (closed_names (Callers.log both_finished)) ∧
  ∀ name srv, EvClose name srv ∈ Callers.log both_finished →
    Server.Service name three = Some srv ∧ name ∉ Server.failedServices three.
Proof.
  split; [exact both_finished_run|].
  exact (callers_close_each_entry_at_most_once three [None; None] both_finished
           both_finished_run).
Defined.
